(** * dependency_graph.py: reading a git object store and walking commit ancestry

    A shallow embedding of [src/dependency_graph.py].  Python values are
    modelled as follows.

    - [str] is a list of Unicode code points, [bytes] a list of bytes.
    - A commit dictionary is a finite map from its (literal) keys to
      dynamically typed values.
    - Exceptions are an inductive type; a computation that may raise returns
      a [result].
    - Functions that touch the filesystem or standard output return, next to
      their result, the list of accesses they performed, in order.
    - The [while] loop of [get_commits_after_date] takes a fuel argument;
      [None] means the fuel ran out before the loop ended.

    The interpreter's codecs ([zlib.decompress], [bytes.decode], [int], and
    the decoding done by a text-mode [open]) are the fields of the class
    [Interpreter]: every theorem holds whatever these functions compute. *)

From Stdlib Require Import ZArith NArith Ascii String List Sorted Permutation Lia.
From stdpp Require Import base option list gmap strings pretty.

Local Open Scope Z_scope.

(** ** Python values *)

Definition str := list N.
Definition bytes := list Byte.byte.

(** A Python string literal. *)
Definition lit (s : string) : str := N_of_ascii <$> list_ascii_of_string s.

Inductive value :=
  | VNone
  | VInt (n : Z)
  | VStr (s : str).

Global Instance value_eq_dec : EqDecision value.
Proof. solve_decision. Defined.

(** [bool(v)]: [None], [0] and the empty string are false. *)
Definition truthy (v : value) : bool :=
  match v with
  | VNone => false
  | VInt n => negb (n =? 0)
  | VStr s => match s with [] => false | _ :: _ => true end
  end.

(** [a == b] on the values above. *)
Definition py_eq (a b : value) : bool := bool_decide (a = b).

(** ** Exceptions *)

Inductive exn :=
  | ValueError
  | FileNotFoundError
  | IsADirectoryError
  | ZlibError
  | UnicodeDecodeError
  | IndexError
  | KeyError
  | TypeError
  | TimestampOutOfRange. (* ValueError, OverflowError or OSError of fromtimestamp *)

Inductive result (A : Type) :=
  | Ok (a : A)
  | Raise (e : exn).
Arguments Ok {A} a.
Arguments Raise {A} e.

Global Instance result_ret : MRet result := λ A a, Ok a.
Global Instance result_bind : MBind result := λ A B k m,
  match m with
  | Ok a => k a
  | Raise e => Raise e
  end.

Definition of_option {A} (e : exn) (o : option A) : result A :=
  match o with
  | Some a => Ok a
  | None => Raise e
  end.

(** [for x in xs: acc = f(acc, x)], stopping at the first exception. *)
Fixpoint foldM {A B} (f : A → B → result A) (acc : A) (xs : list B) : result A :=
  match xs with
  | [] => Ok acc
  | x :: xs' => acc' ← f acc x; foldM f acc' xs'
  end.

(** ** Dictionaries *)

Abbreviation commit := (gmap string value).

(** [d[k]] *)
Definition getitem (d : commit) (k : string) : result value :=
  of_option KeyError (d !! k).

(** [d.get(k)], [d.get(k, None)] *)
Definition get (d : commit) (k : string) : value :=
  default VNone (d !! k).

(** ** Strings *)

(** [str.isspace] on one character. *)
Definition isspace (c : N) : bool :=
  ((9 <=? c) && (c <=? 13) || (28 <=? c) && (c <=? 32)
   || (c =? 133) || (c =? 160) || (c =? 5760)
   || (8192 <=? c) && (c <=? 8202)
   || (c =? 8232) || (c =? 8233) || (c =? 8239) || (c =? 8287)
   || (c =? 12288))%N.

(** [s.startswith(p)] *)
Fixpoint startswith (p s : str) : bool :=
  match p, s with
  | [], _ => true
  | a :: p', b :: s' => (a =? b)%N && startswith p' s'
  | _ :: _, [] => false
  end.

(** [s.split(sep)] for a one-character separator. *)
Fixpoint split_on (sep : N) (s : str) : list str :=
  match s with
  | [] => [[]]
  | c :: s' =>
      if (c =? sep)%N then [] :: split_on sep s'
      else match split_on sep s' with
           | l :: ls => (c :: l) :: ls
           | [] => [[c]]
           end
  end.

(** [s.split()]: the maximal runs of characters that are not whitespace.
    [cur] is the run being read, last character first. *)
Fixpoint split_go (cur : str) (s : str) : list str :=
  match s with
  | [] => match cur with [] => [] | _ :: _ => [rev cur] end
  | c :: s' =>
      if isspace c then
        match cur with
        | [] => split_go [] s'
        | _ :: _ => rev cur :: split_go [] s'
        end
      else split_go (c :: cur) s'
  end.

Definition split (s : str) : list str := split_go [] s.

(** [s.strip()] *)
Fixpoint lstrip (s : str) : str :=
  match s with
  | [] => []
  | c :: s' => if isspace c then lstrip s' else s
  end.

Definition strip (s : str) : str := rev (lstrip (rev (lstrip s))).

(** [xs[i]] for [i >= 0], and [xs[-i]] for [i > 0]. *)
Definition index {A} (xs : list A) (i : nat) : result A :=
  of_option IndexError (xs !! i).

Definition index_back {A} (xs : list A) (i : nat) : result A :=
  if decide (0 < i ≤ length xs)%nat
  then of_option IndexError (xs !! (length xs - i)%nat)
  else Raise IndexError.

(** [str(n)] for a natural number. *)
Definition str_of_nat (n : nat) : str := lit (pretty n).

(** [os.path.join] of [posixpath]. *)
Definition sep : N := 47.

Definition endswith_sep (s : str) : bool :=
  match last s with
  | Some c => (c =? sep)%N
  | None => false
  end.

Definition join2 (path b : str) : str :=
  if startswith [sep] b then b
  else if match path with [] => true | _ :: _ => endswith_sep path end
       then path ++ b
       else path ++ sep :: b.

Definition path_join (a : str) (p : list str) : str := foldl join2 a p.

(** ** The filesystem, and the accesses a run performs *)

Inductive node :=
  | File (content : bytes)
  | Dir.

Definition filesystem := str → option node.

Inductive event :=
  | EPrint (msg : str)
  | EExists (path : str)
  | EOpen (path : str).

Definition io (A : Type) : Type := result A * list event.

Definition io_ret {A} (a : A) : io A := (Ok a, []).

Definition io_bind {A B} (m : io A) (k : A → io B) : io B :=
  match m with
  | (Ok a, t) => let '(r, t') := k a in (r, t ++ t')
  | (Raise e, t) => (Raise e, t)
  end.

Global Instance io_mret : MRet io := @io_ret.
Global Instance io_mbind : MBind io := λ A B k m, io_bind m k.

Definition lift {A} (r : result A) : io A := (r, []).

Definition print (msg : str) : io unit := (Ok tt, [EPrint msg]).

(** [os.path.exists(p)] *)
Definition path_exists (fs : filesystem) (p : str) : io bool :=
  (Ok (bool_decide (is_Some (fs p))), [EExists p]).

(** [open(p, 'rb').read()] *)
Definition read_file (fs : filesystem) (p : str) : io bytes :=
  (match fs p with
   | Some (File c) => Ok c
   | Some Dir => Raise IsADirectoryError
   | None => Raise FileNotFoundError
   end, [EOpen p]).

(** ** Dates *)

(** A [datetime] is given by the reading of its own wall clock, counted in
    microseconds from 1970-01-01T00:00:00 on that clock, and by its [tzinfo]:
    [None] for a naive value, otherwise the offset from UTC in seconds. *)
Record datetime := { wall : Z; tzinfo : option Z }.

Definition utc : Z := 0.

(** The timestamps of 0001-01-01T00:00:00 and 9999-12-31T23:59:59. *)
Definition MIN_TIMESTAMP : Z := -62135596800.
Definition MAX_TIMESTAMP : Z := 253402300799.

(** [datetime.fromtimestamp(v, timezone.utc)] *)
Definition fromtimestamp_utc (v : value) : result datetime :=
  match v with
  | VInt ts =>
      if (MIN_TIMESTAMP <=? ts) && (ts <=? MAX_TIMESTAMP)
      then Ok {| wall := ts * 1000000; tzinfo := Some utc |}
      else Raise TimestampOutOfRange
  | _ => Raise TypeError
  end.

(** [d.replace(tzinfo=tz)]: the clock reading is kept as it is. *)
Definition replace_tzinfo (d : datetime) (tz : Z) : datetime :=
  {| wall := wall d; tzinfo := Some tz |}.

(** [a >= b] *)
Definition datetime_ge (a b : datetime) : result bool :=
  match tzinfo a, tzinfo b with
  | Some oa, Some ob => Ok (wall b - ob * 1000000 <=? wall a - oa * 1000000)
  | None, None => Ok (wall b <=? wall a)
  | _, _ => Raise TypeError
  end.

(** Python's [list.sort] is stable: elements that compare equal keep their
    order.  [insert_by_key x l] puts [x] in front of the first element whose
    key is not smaller. *)
Fixpoint insert_by_key {A} (x : Z * A) (l : list (Z * A)) : list (Z * A) :=
  match l with
  | [] => [x]
  | y :: l' => if x.1 <=? y.1 then x :: l else y :: insert_by_key x l'
  end.

Definition stable_sort {A} (l : list (Z * A)) : list (Z * A) :=
  foldr insert_by_key [] l.

(** ** The program *)

(** What the program uses of the interpreter's library. *)
Class Interpreter := {
  (** [zlib.decompress]; [None] is [zlib.error]. *)
  zlib_decompress : bytes → option bytes;
  (** [data.decode('utf-8')]; [None] is [UnicodeDecodeError]. *)
  decode_utf8 : bytes → option str;
  (** [int(s)] on a string; [None] is [ValueError]. *)
  int_of_str : str → option Z;
  (** What [open(path, 'r').read()] makes of a file's bytes;
      [None] is [UnicodeDecodeError]. *)
  decode_text : bytes → option str;
}.

Section Program.

Context {python : Interpreter}.
Variable fs : filesystem.

(** [open(p, 'r').read()] *)
Definition read_text (p : str) : io str :=
  content ← read_file fs p;
  lift (of_option UnicodeDecodeError (decode_text content)).

(** The body of the [for] loop of [parse_commit_data]. *)
Definition parse_line (commit_data : commit) (line : str) : result commit :=
  if startswith (lit "parent") line then
    p ← index (split line) 1;
    Ok (<["parent" := VStr p]> commit_data)
  else if startswith (lit "committer") line then
    let committer_parts := split line in
    t ← index_back committer_parts 2;
    n ← of_option ValueError (int_of_str t);
    Ok (<["committer_timestamp" := VInt n]> commit_data)
  else Ok commit_data.

Definition parse_commit_data (data : bytes) (commit_hash : str) : result commit :=
  let commit_data : commit := {["commit_hash" := VStr commit_hash]} in
  text ← of_option UnicodeDecodeError (decode_utf8 data);
  let lines := split_on 10 text in
  foldM parse_line commit_data lines.

(** The path of the object file that [read_commit] looks for. *)
Definition object_path (repo_path commit_hash : str) : str :=
  let objects_path := path_join repo_path [lit ".git"; lit "objects"] in
  let object_dir := take 2 commit_hash in
  let object_file := drop 2 commit_hash in
  path_join objects_path [object_dir; object_file].

Definition read_commit (commit_hash repo_path : str) : io commit :=
  if decide (length commit_hash < 40)%nat then lift (Raise ValueError)
  else
    let commit_file_path := object_path repo_path commit_hash in
    _ ← print (lit "Trying to read commit from: " ++ commit_file_path);
    found ← path_exists fs commit_file_path;
    if negb found then lift (Raise FileNotFoundError)
    else
      file_content ← read_file fs commit_file_path;
      decompressed_data ← lift (of_option ZlibError (zlib_decompress file_content));
      lift (parse_commit_data decompressed_data commit_hash).

Definition get_commit_hash_from_ref (branch_ref repo_path : str) : io str :=
  let ref_path := path_join repo_path [lit ".git"; branch_ref] in
  content ← read_text ref_path;
  mret (strip content).

(** Lines 64-73 of [get_commits_after_date]: the hash that [HEAD] names. *)
Definition head_commit_hash (repo_path : str) : io str :=
  let head_path := path_join repo_path [lit ".git"; lit "HEAD"] in
  content ← read_text head_path;
  let ref := strip content in
  if startswith (lit "ref:") ref then
    branch_ref ← lift (index (split ref) 1);
    get_commit_hash_from_ref branch_ref repo_path
  else mret ref.

(** One turn of the [while] loop, up to the assignment of the parent to
    [current_commit_hash]: the new values of [current_commit_hash],
    [start_date] and [commits]. *)
Definition walk_step (repo_path : str) (current : value)
    (start_date : datetime) (commits : list commit)
    : io (value * datetime * list commit) :=
  commit_data ← match current with
                | VStr h => read_commit h repo_path
                | _ => lift (Raise TypeError) (* len() of a non-string *)
                end;
  ts ← lift (getitem commit_data "committer_timestamp");
  commit_date ← lift (fromtimestamp_utc ts);
  let start_date := replace_tzinfo start_date utc in
  keep ← lift (datetime_ge commit_date start_date);
  let commits := if keep : bool then commits ++ [commit_data] else commits in
  mret (get commit_data "parent", start_date, commits).

(** Run [k] after [m], when [k] may run out of fuel. *)
Definition io_then {A B} (m : io A) (k : A → option (io B)) : option (io B) :=
  match m with
  | (Ok a, t) => (λ '(r, t'), (r, t ++ t')) <$> k a
  | (Raise e, t) => Some (Raise e, t)
  end.

(** The [while] loop; the result is the final value of [commits]. *)
Fixpoint walk_loop (fuel : nat) (repo_path : str) (current : value)
    (start_date : datetime) (commits : list commit)
    : option (io (list commit)) :=
  if negb (truthy current) then Some (mret commits)
  else
    match fuel with
    | O => None
    | S fuel' =>
        io_then (walk_step repo_path current start_date commits)
          (λ '(current, start_date, commits),
             if negb (truthy current) then Some (mret commits) (* break *)
             else walk_loop fuel' repo_path current start_date commits)
    end.

(** [commits.sort(key=lambda x: x['committer_timestamp'])]: the keys are
    computed first, then the list is sorted on them. *)
Definition sort_key (x : commit) : result (Z * commit) :=
  k ← getitem x "committer_timestamp";
  match k with
  | VInt n => Ok (n, x)
  | _ => Raise TypeError
  end.

Definition sort_commits (commits : list commit) : result (list commit) :=
  keyed ← foldM (λ acc x, kx ← sort_key x; Ok (acc ++ [kx])) [] commits;
  Ok ((stable_sort keyed).*2).

Definition get_commits_after_date (fuel : nat) (repo_path : str)
    (start_date : datetime) : option (io (list commit)) :=
  io_then (head_commit_hash repo_path) (λ branch_commit_hash,
    walked ← walk_loop fuel repo_path (VStr branch_commit_hash) start_date [];
    Some (commits ← walked; lift (sort_commits commits))).

End Program.

(** ** The graph *)

(** What [graphviz.Digraph] records: the statements of the graph body, in the
    order of the calls to [node] and [edge]. *)
Inductive stmt :=
  | Node (name label : str)
  | Edge (tail head : str).

(** [next((i for i, c in enumerate(commits, i) if c['commit_hash'] == parent_hash), None)] *)
Fixpoint find_parent_idx (i : nat) (commits : list commit) (parent_hash : value)
    : result (option nat) :=
  match commits with
  | [] => Ok None
  | c :: commits' =>
      h ← getitem c "commit_hash";
      if py_eq h parent_hash then Ok (Some i)
      else find_parent_idx (S i) commits' parent_hash
  end.

(** [v[:n]] *)
Definition slice_to (n : nat) (v : value) : result str :=
  match v with
  | VStr s => Ok (take n s)
  | _ => Raise TypeError
  end.

(** The body of the [for] loop of [generate_graph]. *)
Definition graph_step (commits : list commit) (graph : list stmt)
    (idx : nat) (commit : commit) : result (list stmt) :=
  commit_hash ← getitem commit "commit_hash";
  short ← slice_to 7 commit_hash;
  let label := lit "Commit " ++ str_of_nat idx ++ [10%N] ++ short in
  let graph := graph ++ [Node (str_of_nat idx) label] in
  let parent_hash := get commit "parent" in
  if truthy parent_hash then
    parent_idx ← find_parent_idx 1 commits parent_hash;
    match parent_idx with
    | Some i =>
        if truthy (VInt (Z.of_nat i))
        then Ok (graph ++ [Edge (str_of_nat i) (str_of_nat idx)])
        else Ok graph
    | None => Ok graph
    end
  else Ok graph.

Fixpoint graph_loop (commits : list commit) (idx : nat) (rest : list commit)
    (graph : list stmt) : result (list stmt) :=
  match rest with
  | [] => Ok graph
  | c :: rest' =>
      graph' ← graph_step commits graph idx c;
      graph_loop commits (S idx) rest' graph'
  end.

Definition generate_graph (commits : list commit) : result (list stmt) :=
  graph_loop commits 1 commits [].

(** ** Vocabulary of the statements *)

(** The outcome of a run, without the record of its accesses. *)
Definition outcome {A} (m : option (io A)) : option (result A) := fst <$> m.

Definition is_parent_line (line : str) : bool := startswith (lit "parent") line.
Definition is_committer_line (line : str) : bool := startswith (lit "committer") line.

(** A line that the loop of [parse_commit_data] gets through: a [parent]
    line has a second word, a [committer] line an integer as its last word
    but one. *)
Definition readable_line {python : Interpreter} (line : str) : Prop :=
  (is_parent_line line → is_Some (split line !! 1%nat)) ∧
  (is_committer_line line →
     ∃ t, index_back (split line) 2 = Ok t ∧ is_Some (int_of_str t)).

(** The same, as a test that can be run. *)
Definition readable_lineb {python : Interpreter} (line : str) : bool :=
  (if is_parent_line line then bool_decide (is_Some (split line !! 1%nat))
   else true)
  && (if is_committer_line line
      then match index_back (split line) 2 with
           | Ok t => bool_decide (is_Some (int_of_str t))
           | Raise _ => false
           end
      else true).

(** The timestamp of a record, when it has an integer one. *)
Definition timestamp (r : commit) : option Z :=
  match r !! "committer_timestamp" with
  | Some (VInt ts) => Some ts
  | _ => None
  end.

(** A record whose timestamp [datetime.fromtimestamp] accepts. *)
Definition dated (r : commit) : Prop :=
  ∃ ts, timestamp r = Some ts ∧ MIN_TIMESTAMP ≤ ts ≤ MAX_TIMESTAMP.

(** The test [commit_date >= start_date] of the loop, for a dated record. *)
Definition keep (start_date : datetime) (r : commit) : bool :=
  match timestamp r with
  | Some ts => wall start_date <=? ts * 1000000
  | None => false
  end.

(** The keys that [sort_commits] computes. *)
Definition keyed (r : commit) : Z * commit := (default 0 (timestamp r), r).

(** Ascending order of timestamps. *)
Definition timestamp_le (a b : commit) : Prop :=
  ∃ x y, timestamp a = Some x ∧ timestamp b = Some y ∧ x ≤ y.

(** The records of a list that carry the timestamp [ts], in their order. *)
Definition with_timestamp (ts : Z) (l : list commit) : list commit :=
  filter (λ r, timestamp r = Some ts) l.

(** [lineage fs repo current rs next]: starting from [current], the parent
    links lead through the records [rs], each read from the store under the
    hash that names it and each dated, and then point to [next]. *)
Inductive lineage {python : Interpreter} (fs : filesystem) (repo : str)
    : value → list commit → value → Prop :=
  | lineage_nil current : lineage fs repo current [] current
  | lineage_cons h r rs next :
      (read_commit fs h repo).1 = Ok r →
      dated r →
      lineage fs repo (get r "parent") rs next →
      lineage fs repo (VStr h) (r :: rs) next.

(** A lineage that ends at a root commit: the last record has no parent. *)
Definition ancestry {python : Interpreter} (fs : filesystem) (repo : str)
    (current : value) (rs : list commit) : Prop :=
  ∃ next, lineage fs repo current rs next ∧ truthy next = false.

(** [first_with_hash commits hash i]: counting from 0, the commit at index
    [i] is the first of the list whose [commit_hash] is [hash]. *)
Definition first_with_hash (commits : list commit) (hash : value) (i : nat) : Prop :=
  (∃ c, commits !! i = Some c ∧ c !! "commit_hash" = Some hash) ∧
  ∀ j c, commits !! j = Some c → (j < i)%nat → c !! "commit_hash" ≠ Some hash.

(** The edge that the loop of [generate_graph] adds for the commit [c] of
    sequence number [idx]. *)
Definition edge_of (commits : list commit) (idx : nat) (c : commit) : list stmt :=
  if truthy (get c "parent") then
    match list_find (λ c', c' !! "commit_hash" = Some (get c "parent")) commits with
    | Some (j, _) => [Edge (str_of_nat (S j)) (str_of_nat idx)]
    | None => []
    end
  else [].

(** A line that the loop of [parse_commit_data] acts on. *)
Definition is_header_line (line : str) : bool :=
  is_parent_line line || is_committer_line line.

(** The exception, if any, that the body of the loop of [parse_commit_data]
    raises on a line. *)
Definition line_error {python : Interpreter} (line : str) : option exn :=
  if is_parent_line line then
    match split line !! 1%nat with
    | Some _ => None
    | None => Some IndexError
    end
  else if is_committer_line line then
    match index_back (split line) 2 with
    | Ok t => match int_of_str t with
              | Some _ => None
              | None => Some ValueError
              end
    | Raise e => Some e
    end
  else None.

(** A word: a string that is not empty and has no whitespace in it. *)
Definition word (s : str) : Prop :=
  s ≠ [] ∧ Forall (λ c, isspace c = false) s.

(** ** A small interpreter instance, for running the program on examples *)

Module Sample.

(** Objects stored without compression. *)
Definition decompress (b : bytes) : option bytes := Some b.

(** UTF-8 on ASCII input. *)
Definition decode (b : bytes) : option str :=
  mapM (λ x, let n := Byte.to_N x in if (n <? 128)%N then Some n else None) b.

(** [int] on a non-empty run of ASCII digits. *)
Definition digit (c : N) : option Z :=
  if ((48 <=? c) && (c <=? 57))%N then Some (Z.of_N c - 48) else None.

Definition int (s : str) : option Z :=
  match s with
  | [] => None
  | _ :: _ => foldl (λ acc c, a ← acc; d ← digit c; Some (10 * a + d)) (Some 0) s
  end.

Definition data (s : string) : bytes := list_byte_of_string s.

(** A filesystem holding the listed files and nothing else. *)
Definition files (l : list (string * string)) : filesystem :=
  λ p, (λ x, File (data x.2)) <$> List.find (λ x, bool_decide (lit x.1 = p)) l.

Definition python : Interpreter :=
  {| zlib_decompress := decompress; decode_utf8 := decode;
     int_of_str := int; decode_text := decode |}.

Definition parse := parse_commit_data (python:=python).
Definition read := read_commit (python:=python).
Definition walk := get_commits_after_date (python:=python).

Local Open Scope string_scope.

Definition nl : string := String (ascii_of_nat 10) "".
Definition nul : string := String (ascii_of_nat 0) "".

Definition c1 : string := "1a410efbd13591db07496601ebc7a059dd55cfe9".
Definition c2 : string := "cac0cab538b970a37ea1e769cbbde608743bc96d".
Definition c3 : string := "fdf4fc3344e67ab068f836878b6c4951e3b15f3d".
Definition c9 : string := "0155eb4229851634a0f03eb265b69f5a2d56f341".
(** Forty-one characters. *)
Definition c41 : string := "fdf4fc3344e67ab068f836878b6c4951e3b15f3d7".

(** The text of a commit object with the given [parent] lines and the given
    timestamp on its author and committer lines. *)
Definition commit_text (parents : list string) (ts : string) : string :=
  "commit 200" ++ nul ++ "tree 0de2c1a3d4f5e6b7a8c9d0e1f2a3b4c5d6e7f809" ++ nl
  ++ String.concat "" ((λ p, "parent " ++ p ++ nl) <$> parents)
  ++ "author A U Thor <author@example.com> " ++ ts ++ " +0000" ++ nl
  ++ "committer C O Mitter <committer@example.com> " ++ ts ++ " +0000" ++ nl
  ++ nl ++ "message" ++ nl.

(** A merge commit: two [parent] lines. *)
Definition merge_commit : bytes := data (commit_text [c1; c2] "300").

(** An object without a [committer] line. *)
Definition no_committer : string :=
  "commit 60" ++ nul ++ "tree 0de2c1a3d4f5e6b7a8c9d0e1f2a3b4c5d6e7f809" ++ nl
  ++ nl ++ "message" ++ nl.

Definition repo : str := lit "repo".

Definition object_file (h : string) : string :=
  "repo/.git/objects/" ++ substring 0 2 h ++ "/"
  ++ substring 2 (String.length h - 2) h.

Definition head_files (tip : string) : list (string * string) :=
  [("repo/.git/HEAD", "ref: refs/heads/main" ++ nl);
   ("repo/.git/refs/heads/main", tip ++ nl)].

(** The chain [c1 <- c2 <- c3] with timestamps 100, 200 and 300; [HEAD] is
    at [c3]. *)
Definition three_commits : filesystem :=
  files (head_files c3 ++
         [(object_file c3, commit_text [c2] "300");
          (object_file c2, commit_text [c1] "200");
          (object_file c1, commit_text [] "100")]).

(** Two commits of equal timestamp on top of an older one. *)
Definition tied_commits : filesystem :=
  files (head_files c3 ++
         [(object_file c3, commit_text [c2] "200");
          (object_file c2, commit_text [c1] "200");
          (object_file c1, commit_text [] "100")]).

(** [c2] names the parent [c9], whose object is not in the store. *)
Definition missing_parent : filesystem :=
  files (head_files c3 ++
         [(object_file c3, commit_text [c2] "300");
          (object_file c2, commit_text [c9] "200")]).

(** [HEAD] is at an object that has no [committer] line. *)
Definition undated_tip : filesystem :=
  files (head_files c3 ++ [(object_file c3, no_committer)]).

(** An object stored under a name of forty-one characters. *)
Definition long_name : filesystem :=
  files [(object_file c41, commit_text [] "100")].

Definition at_second (s : Z) (tz : option Z) : datetime :=
  {| wall := s * 1000000; tzinfo := tz |}.

(** The records that reading the three commits gives. *)
Definition record (h : string) (parent : option string) (ts : Z) : commit :=
  let r : commit :=
    <["committer_timestamp" := VInt ts]> {["commit_hash" := VStr (lit h)]} in
  match parent with
  | Some p => <["parent" := VStr (lit p)]> r
  | None => r
  end.

(** A root commit whose message has lines that begin like headers. *)
Definition chatty_root : string :=
  "commit 120" ++ nul ++ "tree 0de2c1a3d4f5e6b7a8c9d0e1f2a3b4c5d6e7f809" ++ nl
  ++ "committer C O Mitter <committer@example.com> 100 +0000" ++ nl
  ++ nl ++ "parents are listed first" ++ nl.

(** The header lines of [commit_text [c1] "100"], and nothing else. *)
Definition bare_headers : string :=
  "parent " ++ c1 ++ nl
  ++ "committer C O Mitter <committer@example.com> 100 +0000".

(** An object whose message has the single word [parent] on a line. *)
Definition lone_parent : string :=
  "commit 90" ++ nul ++ "tree 0de2c1a3d4f5e6b7a8c9d0e1f2a3b4c5d6e7f809" ++ nl
  ++ "committer C O Mitter <committer@example.com> 100 +0000" ++ nl
  ++ nl ++ "parent" ++ nl.

(** Forty characters, the third of them a slash. *)
Definition slashed : string := "fd/4fc3344e67ab068f836878b6c4951e3b15f3d".

(** [HEAD] names its branch without a space after the colon. *)
Definition unspaced_head : filesystem :=
  files [("repo/.git/HEAD", "ref:refs/heads/main" ++ nl)].

(** [HEAD] holds a newline and nothing else. *)
Definition blank_head : filesystem :=
  files [("repo/.git/HEAD", nl)].

(** The hash of the mocks of [test.py]: thirty-nine characters. *)
Definition mock_hash : string := "abc1234567890abcdef1234567890abcdef1234".

(** A detached [HEAD] that holds the hash of the mocks. *)
Definition mock_head : filesystem :=
  files [("repo/.git/HEAD", mock_hash ++ nl)].

(** [c3] names itself as its parent. *)
Definition self_parent : filesystem :=
  files (head_files c3 ++ [(object_file c3, commit_text [c3] "300")]).

(** [c3] is dated one second after 9999-12-31T23:59:59. *)
Definition far_future : filesystem :=
  files (head_files c3 ++ [(object_file c3, commit_text [] "253402300800")]).

End Sample.

(** * Properties *)

(** ** The monads *)

Lemma bind_Ok {A B} (m : result A) (k : A → result B) b :
  m ≫= k = Ok b ↔ ∃ a, m = Ok a ∧ k a = Ok b.
Proof.
  destruct m as [a|e]; simpl; split.
  - eauto.
  - by intros (? & [= <-] & ?).
  - done.
  - by intros (? & ? & ?).
Qed.

Lemma io_bind_fst {A B} (m : io A) (k : A → io B) :
  (m ≫= k).1 = match m.1 with Ok a => (k a).1 | Raise e => Raise e end.
Proof.
  destruct m as [[a|e] t]; simpl; [|done].
  unfold mbind, io_mbind; simpl. by destruct (k a).
Qed.

Lemma outcome_io_then {A B} (m : io A) (k : A → option (io B)) :
  outcome (io_then m k) =
  match m.1 with Ok a => outcome (k a) | Raise e => Some (Raise e) end.
Proof.
  destruct m as [[a|e] t]; simpl; [|done].
  unfold outcome. destruct (k a) as [[r t']|]; done.
Qed.

Lemma foldM_app {A B} (f : A → B → result A) acc xs ys :
  foldM f acc (xs ++ ys) = foldM f acc xs ≫= λ acc', foldM f acc' ys.
Proof.
  revert acc. induction xs as [|x xs IH]; intros acc; simpl; [done|].
  destruct (f acc x); simpl; auto.
Qed.

(** ** Strings *)

Lemma parent_not_committer line :
  startswith (lit "parent") line = true →
  startswith (lit "committer") line = false.
Proof.
  destruct line as [|c line]; [done|].
  change (lit "parent") with (112%N :: lit "arent").
  change (lit "committer") with (99%N :: lit "ommitter").
  cbn [startswith]. destruct (N.eqb_spec 112 c) as [<-|]; [done|].
  by rewrite andb_false_l.
Qed.

Lemma length_lit_hash_nonempty (h : str) : (40 ≤ length h)%nat → truthy (VStr h) = true.
Proof. destruct h; simpl; [lia|done]. Qed.

(** ** The decoder *)

Section Decoder.

Context {python : Interpreter}.

Lemma parse_line_parent d line :
  is_parent_line line →
  parse_line d line =
    p ← index (split line) 1; Ok (<["parent" := VStr p]> d).
Proof.
  unfold is_parent_line, parse_line. by intros ->%Is_true_true.
Qed.

Lemma parse_line_committer d line :
  is_committer_line line →
  parse_line d line =
    t ← index_back (split line) 2;
    n ← of_option ValueError (int_of_str t);
    Ok (<["committer_timestamp" := VInt n]> d).
Proof.
  unfold is_committer_line, parse_line. intros Hc%Is_true_true.
  destruct (startswith (lit "parent") line) eqn:Hp.
  - apply parent_not_committer in Hp. congruence.
  - by rewrite Hc.
Qed.

Lemma parse_line_other d line :
  ¬ is_parent_line line → ¬ is_committer_line line →
  parse_line d line = Ok d.
Proof.
  unfold is_parent_line, is_committer_line, parse_line.
  intros Hp%Is_true_false Hc%Is_true_false. by rewrite Hp, Hc.
Qed.

Lemma parse_line_readable d line :
  readable_line line → ∃ d', parse_line d line = Ok d'.
Proof.
  intros [Hp Hc].
  destruct (is_parent_line line) eqn:Ep.
  - rewrite parse_line_parent by by rewrite Ep.
    destruct Hp as [p Hp]; [done|]. unfold index. rewrite Hp. simpl. eauto.
  - destruct (is_committer_line line) eqn:Ec.
    + rewrite parse_line_committer by by rewrite Ec.
      destruct Hc as (t & -> & n & Hn); [done|]. simpl. rewrite Hn. simpl. eauto.
    + rewrite parse_line_other; [eauto|by apply Is_true_false_2..].
Qed.

Lemma parse_line_commit_hash d line d' :
  parse_line d line = Ok d' → d' !! "commit_hash" = d !! "commit_hash".
Proof.
  unfold parse_line. intros H.
  repeat case_match; simplify_eq; try done;
    repeat (apply bind_Ok in H as (? & ? & H)); simplify_eq;
    by rewrite lookup_insert_ne.
Qed.

Lemma parse_line_timestamp d line d' :
  ¬ is_committer_line line →
  parse_line d line = Ok d' →
  d' !! "committer_timestamp" = d !! "committer_timestamp".
Proof.
  intros Hc. destruct (is_parent_line line) eqn:Ep.
  - rewrite parse_line_parent by by rewrite Ep.
    intros (? & ? & ?)%bind_Ok. simplify_eq. by rewrite lookup_insert_ne.
  - rewrite parse_line_other; [by intros [= ->]|by apply Is_true_false_2|done].
Qed.

Lemma parse_line_parent_key d line d' :
  parse_line d line = Ok d' →
  d' !! "parent" =
    if is_parent_line line then VStr <$> split line !! 1%nat else d !! "parent".
Proof.
  destruct (is_parent_line line) eqn:Ep.
  - rewrite parse_line_parent by by rewrite Ep.
    intros (p & Hp & ?)%bind_Ok. simplify_eq. rewrite lookup_insert_eq.
    unfold index in Hp. by destruct (split line !! 1%nat); simplify_eq/=.
  - destruct (is_committer_line line) eqn:Ec.
    + rewrite parse_line_committer by by rewrite Ec.
      intros (? & ? & (? & ? & ?)%bind_Ok)%bind_Ok. simplify_eq.
      by rewrite lookup_insert_ne.
    + rewrite parse_line_other; [by intros [= ->]|by apply Is_true_false_2..].
Qed.

Lemma foldM_parse_readable lines : ∀ d,
  Forall readable_line lines → ∃ r, foldM parse_line d lines = Ok r.
Proof.
  induction lines as [|l lines IH]; intros d Hall; simpl; [eauto|].
  inversion Hall as [|? ? Hl Hrest]; subst.
  destruct (parse_line_readable d l Hl) as [d' ->]. simpl. auto.
Qed.

Lemma foldM_parse_commit_hash lines : ∀ d r,
  foldM parse_line d lines = Ok r → r !! "commit_hash" = d !! "commit_hash".
Proof.
  induction lines as [|l lines IH]; intros d r; simpl.
  - congruence.
  - intros (d' & Hd' & Hr)%bind_Ok.
    rewrite (IH _ _ Hr). eauto using parse_line_commit_hash.
Qed.

Lemma foldM_parse_timestamp lines : ∀ d r,
  Forall (λ l, ¬ is_committer_line l) lines →
  foldM parse_line d lines = Ok r →
  r !! "committer_timestamp" = d !! "committer_timestamp".
Proof.
  induction lines as [|l lines IH]; intros d r Hall; simpl.
  - congruence.
  - inversion Hall; subst. intros (d' & Hd' & Hr)%bind_Ok.
    rewrite (IH _ _ ltac:(done) Hr). eauto using parse_line_timestamp.
Qed.

Lemma foldM_parse_parent lines : ∀ d r,
  foldM parse_line d lines = Ok r →
  r !! "parent" =
    match last (filter is_parent_line lines) with
    | Some l => VStr <$> split l !! 1%nat
    | None => d !! "parent"
    end.
Proof.
  induction lines as [|l lines IH]; intros d r; simpl.
  - congruence.
  - intros (d' & Hd' & Hr)%bind_Ok.
    rewrite (IH _ _ Hr). apply parse_line_parent_key in Hd'.
    rewrite filter_cons. destruct (decide (is_parent_line l)) as [Hl|Hl].
    + rewrite last_cons. destruct (last _); [done|].
      by rewrite Hd', (Is_true_true_1 _ Hl).
    + destruct (last _); [done|].
      by rewrite Hd', (Is_true_false_1 _ Hl).
Qed.

Lemma readable_lineb_true lines :
  forallb readable_lineb lines = true → Forall readable_line lines.
Proof.
  rewrite forallb_forall, Forall_forall. intros Hall line Hin.
  apply list_elem_of_In, Hall, andb_prop in Hin as [Hp Hc]. split.
  - intros Hl%Is_true_true. rewrite Hl in Hp. by apply bool_decide_eq_true in Hp.
  - intros Hl%Is_true_true. rewrite Hl in Hc.
    destruct (index_back (split line) 2) as [t|]; [|done].
    exists t. by apply bool_decide_eq_true in Hc.
Qed.

End Decoder.

Lemma timestamp_Some r ts :
  timestamp r = Some ts ↔ r !! "committer_timestamp" = Some (VInt ts).
Proof.
  unfold timestamp. destruct (r !! "committer_timestamp") as [[]|]; naive_solver.
Qed.

(** ** Sorting *)

Section Sorting.

Context {A : Type}.
Implicit Types (x : Z * A) (l : list (Z * A)).

Lemma insert_by_key_perm x l : insert_by_key x l ≡ₚ x :: l.
Proof.
  induction l as [|y l IH]; simpl; [done|].
  destruct (x.1 <=? y.1); [done|]. by rewrite IH, Permutation_swap.
Qed.

Lemma stable_sort_perm l : stable_sort l ≡ₚ l.
Proof.
  induction l as [|x l IH]; simpl; [done|].
  by rewrite insert_by_key_perm, IH.
Qed.

Lemma insert_by_key_sorted x l :
  StronglySorted (λ a b, a.1 ≤ b.1) l →
  StronglySorted (λ a b, a.1 ≤ b.1) (insert_by_key x l).
Proof.
  induction 1 as [|y l Hl IH Hy]; simpl.
  - repeat constructor.
  - destruct (Z.leb_spec x.1 y.1) as [Hle|Hlt].
    + constructor; [by constructor|].
      constructor; [done|]. eapply Forall_impl; [exact Hy|]. simpl. lia.
    + constructor; [done|]. rewrite insert_by_key_perm.
      constructor; [lia|done].
Qed.

Lemma stable_sort_sorted l : StronglySorted (λ a b, a.1 ≤ b.1) (stable_sort l).
Proof.
  induction l as [|x l IH]; simpl; [constructor|].
  by apply insert_by_key_sorted.
Qed.

(** Insertion moves [x] only past elements with a smaller key, so the
    elements of any one key keep their order. *)
Lemma insert_by_key_stable k x l :
  filter (λ y, y.1 = k) (insert_by_key x l) = filter (λ y, y.1 = k) (x :: l).
Proof.
  induction l as [|y l IH]; simpl; [done|].
  destruct (Z.leb_spec x.1 y.1) as [Hle|Hlt]; [done|].
  rewrite (filter_cons _ y), IH, !(filter_cons _ x), (filter_cons _ y).
  repeat case_decide; try done; lia.
Qed.

Lemma stable_sort_stable k l :
  filter (λ y, y.1 = k) (stable_sort l) = filter (λ y, y.1 = k) l.
Proof.
  induction l as [|x l IH]; simpl; [done|].
  by rewrite insert_by_key_stable, !filter_cons, IH.
Qed.

End Sorting.

Lemma sort_key_timestamp r :
  is_Some (timestamp r) → sort_key r = Ok (keyed r).
Proof.
  intros [ts Hts]. unfold sort_key, keyed, getitem. rewrite Hts.
  apply timestamp_Some in Hts. by rewrite Hts.
Qed.

Lemma sort_commits_timestamp cs :
  Forall (λ r, is_Some (timestamp r)) cs →
  sort_commits cs = Ok (stable_sort (keyed <$> cs)).*2.
Proof.
  intros Hall. unfold sort_commits.
  enough (∀ acc, foldM (λ acc x, kx ← sort_key x; Ok (acc ++ [kx])) acc cs
                 = Ok (acc ++ (keyed <$> cs))) as -> by done.
  induction Hall as [|r cs Hr _ IH]; intros acc; simpl.
  - by rewrite app_nil_r.
  - rewrite sort_key_timestamp by done. simpl.
    by rewrite IH, <-app_assoc.
Qed.

Lemma keyed_sorted (l : list (Z * commit)) :
  Forall (λ p, timestamp p.2 = Some p.1) l →
  StronglySorted (λ a b, a.1 ≤ b.1) l →
  StronglySorted timestamp_le l.*2.
Proof.
  intros Hall Hs. induction Hs as [|p l Hl IH Hp]; simpl; [constructor|].
  inversion Hall as [|? ? Hkey Hall']; subst.
  constructor; [auto|]. rewrite Forall_fmap.
  rewrite Forall_forall in Hp, Hall'. apply Forall_forall. intros q Hq. simpl.
  exists p.1, q.1. auto.
Qed.

Lemma keyed_with_timestamp ts (l : list (Z * commit)) :
  Forall (λ p, timestamp p.2 = Some p.1) l →
  (filter (λ p, p.1 = ts) l).*2 = with_timestamp ts l.*2.
Proof.
  unfold with_timestamp. induction 1 as [|p l Hp _ IH]; [done|].
  rewrite fmap_cons, !filter_cons, <-IH.
  repeat case_decide; try done; rewrite Hp in *; naive_solver.
Qed.

(** What [sort_commits] returns: the same records, in ascending order of
    timestamp, those of equal timestamp in the order they had. *)
Lemma sort_commits_spec cs :
  Forall (λ r, is_Some (timestamp r)) cs →
  ∃ out, sort_commits cs = Ok out ∧ out ≡ₚ cs ∧
    StronglySorted timestamp_le out ∧
    ∀ ts, with_timestamp ts out = with_timestamp ts cs.
Proof.
  intros Hall. rewrite sort_commits_timestamp by done.
  eexists; split; [done|].
  assert (Forall (λ p : Z * commit, timestamp p.2 = Some p.1) (keyed <$> cs)) as Hk.
  { rewrite Forall_fmap. eapply Forall_impl; [exact Hall|].
    intros r [ts Hts]. simpl. by rewrite Hts. }
  assert ((keyed <$> cs).*2 = cs) as Hcs.
  { rewrite <-list_fmap_compose. apply list_fmap_id. }
  split_and!.
  - by rewrite stable_sort_perm, Hcs.
  - apply keyed_sorted; [by rewrite stable_sort_perm|apply stable_sort_sorted].
  - intros ts. rewrite <-keyed_with_timestamp by by rewrite stable_sort_perm.
    by rewrite stable_sort_stable, keyed_with_timestamp, Hcs.
Qed.

(** ** The reader and the walker *)

Section Walker.

Context {python : Interpreter}.
Variable fs : filesystem.

Lemma parse_commit_data_hash data h r :
  parse_commit_data data h = Ok r → r !! "commit_hash" = Some (VStr h).
Proof.
  unfold parse_commit_data. intros (text & _ & Hr)%bind_Ok.
  apply foldM_parse_commit_hash in Hr. by rewrite Hr, lookup_singleton_eq.
Qed.

Lemma read_commit_short h repo :
  (length h < 40)%nat → read_commit fs h repo = (Raise ValueError, []).
Proof. intros Hlen. unfold read_commit. by rewrite decide_True. Qed.

Lemma read_commit_long h repo :
  (40 ≤ length h)%nat →
  read_commit fs h repo =
    let p := object_path repo h in
    let msg := EPrint (lit "Trying to read commit from: " ++ p) in
    match fs p with
    | None => (Raise FileNotFoundError, [msg; EExists p])
    | Some Dir => (Raise IsADirectoryError, [msg; EExists p; EOpen p])
    | Some (File c) =>
        (data ← of_option ZlibError (zlib_decompress c); parse_commit_data data h,
         [msg; EExists p; EOpen p])
    end.
Proof.
  intros Hlen. unfold read_commit. rewrite decide_False by lia.
  unfold path_exists, read_file. cbv zeta.
  destruct (fs (object_path repo h)) as [[c|]|] eqn:Hfs; try done.
  unfold mbind at 1 2 3, io_mbind, print, io_bind; cbn [negb bool_decide].
  rewrite bool_decide_true by eauto. cbn [negb].
  destruct (zlib_decompress c) as [data|]; simpl; [|done].
  by destruct (parse_commit_data _ _).
Qed.

Lemma read_commit_Ok h repo r :
  (read_commit fs h repo).1 = Ok r →
  (40 ≤ length h)%nat ∧ r !! "commit_hash" = Some (VStr h).
Proof.
  destruct (decide (length h < 40)%nat) as [Hlen|Hlen].
  - by rewrite read_commit_short.
  - rewrite read_commit_long by lia. cbv zeta.
    destruct (fs _) as [[c|]|]; simpl; try done.
    intros (data & _ & Hr)%bind_Ok. split; [lia|].
    eauto using parse_commit_data_hash.
Qed.

(** *** One turn of the loop *)

Lemma walk_step_fst repo current sd cs :
  (walk_step fs repo current sd cs).1 =
    match current with
    | VStr h =>
        r ← (read_commit fs h repo).1;
        ts ← getitem r "committer_timestamp";
        d ← fromtimestamp_utc ts;
        b ← datetime_ge d (replace_tzinfo sd utc);
        Ok (get r "parent", replace_tzinfo sd utc,
            if b : bool then cs ++ [r] else cs)
    | _ => Raise TypeError
    end.
Proof.
  unfold walk_step. rewrite io_bind_fst.
  destruct current as [|n|h]; try done.
  destruct (read_commit fs h repo).1 as [r|e]; simpl; [|done].
  destruct (getitem r _) as [ts|]; simpl; [|done].
  destruct (fromtimestamp_utc ts) as [d|]; simpl; [|done].
  by destruct (datetime_ge d _).
Qed.

Lemma fromtimestamp_utc_dated r : dated r →
  getitem r "committer_timestamp" ≫= fromtimestamp_utc =
    ts ← of_option KeyError (timestamp r);
    Ok {| wall := ts * 1000000; tzinfo := Some utc |}.
Proof.
  intros (ts & Hts & Hrange). rewrite Hts.
  apply timestamp_Some in Hts. unfold getitem. rewrite Hts. simpl.
  by rewrite !(proj2 (Z.leb_le _ _)) by lia.
Qed.

Lemma walk_step_dated repo h sd cs r :
  (read_commit fs h repo).1 = Ok r → dated r →
  (walk_step fs repo (VStr h) sd cs).1 =
    Ok (get r "parent", replace_tzinfo sd utc,
        if keep sd r then cs ++ [r] else cs).
Proof.
  intros Hr Hd. rewrite walk_step_fst, Hr. simpl.
  pose proof (fromtimestamp_utc_dated r Hd) as Hf.
  destruct Hd as (ts & Hts & Hrange). unfold keep. rewrite Hts in *.
  destruct (getitem r _) as [v|]; simpl in *; [|done].
  rewrite Hf. simpl. unfold utc.
  by replace (wall sd - 0 * 1000000) with (wall sd) by lia;
     replace (ts * 1000000 - 0 * 1000000) with (ts * 1000000) by lia.
Qed.

Lemma walk_step_Ok repo current sd cs next sd' cs' :
  (walk_step fs repo current sd cs).1 = Ok (next, sd', cs') →
  ∃ h r, current = VStr h ∧ (read_commit fs h repo).1 = Ok r ∧ dated r ∧
    next = get r "parent" ∧ sd' = replace_tzinfo sd utc ∧
    cs' = if keep sd r then cs ++ [r] else cs.
Proof.
  intros Hstep. pose proof Hstep as Hinv. rewrite walk_step_fst in Hinv.
  destruct current as [| |h]; try done.
  apply bind_Ok in Hinv as (r & Hr & Hinv).
  apply bind_Ok in Hinv as (v & Hv & Hinv).
  apply bind_Ok in Hinv as (d & Hd & _).
  assert (dated r) as Hdated.
  { destruct v as [|ts|]; try done. exists ts. split.
    - apply timestamp_Some. unfold getitem in Hv.
      by destruct (r !! _); simplify_eq/=.
    - simpl in Hd. case_match; [lia|done]. }
  exists h, r. rewrite (walk_step_dated repo h sd cs r Hr Hdated) in Hstep.
  by simplify_eq.
Qed.

Lemma walk_step_wall repo current sd1 sd2 cs :
  wall sd1 = wall sd2 →
  walk_step fs repo current sd1 cs = walk_step fs repo current sd2 cs.
Proof.
  intros Hw. unfold walk_step.
  by replace (replace_tzinfo sd1 utc) with (replace_tzinfo sd2 utc)
    by (unfold replace_tzinfo; by rewrite Hw).
Qed.

(** *** The loop *)

Lemma walk_loop_falsy fuel repo current sd cs :
  truthy current = false →
  walk_loop fs fuel repo current sd cs = Some (mret cs).
Proof. intros Hc. destruct fuel; simpl; by rewrite Hc. Qed.

Lemma outcome_walk_loop_S fuel repo current sd cs :
  truthy current = true →
  outcome (walk_loop fs (S fuel) repo current sd cs) =
    match (walk_step fs repo current sd cs).1 with
    | Ok (next, sd', cs') => outcome (walk_loop fs fuel repo next sd' cs')
    | Raise e => Some (Raise e)
    end.
Proof.
  intros Hc. simpl. rewrite Hc. simpl. rewrite outcome_io_then.
  destruct (walk_step fs repo current sd cs).1 as [[[next sd'] cs']|e]; [|done].
  destruct (truthy next) eqn:Hn; simpl; [done|].
  by rewrite walk_loop_falsy.
Qed.

Lemma walk_loop_wall fuel repo current sd1 sd2 cs :
  wall sd1 = wall sd2 →
  walk_loop fs fuel repo current sd1 cs = walk_loop fs fuel repo current sd2 cs.
Proof.
  intros Hw. destruct fuel; simpl; [done|].
  by rewrite (walk_step_wall repo current sd1 sd2 cs Hw).
Qed.

Lemma lineage_truthy repo h r rs next :
  lineage fs repo (VStr h) (r :: rs) next → truthy (VStr h) = true.
Proof.
  inversion 1 as [|? ? ? ? Hr]; subst.
  apply read_commit_Ok in Hr as [Hlen _]. by apply length_lit_hash_nonempty.
Qed.

(** Walking along a lineage: the loop spends one turn per record and goes on
    from the end of the lineage with the records that pass the date test
    added to [commits]. *)
Lemma outcome_walk_loop_lineage repo current rs next :
  lineage fs repo current rs next → ∀ fuel sd cs,
  outcome (walk_loop fs (length rs + fuel) repo current sd cs) =
  outcome (walk_loop fs fuel repo next sd (cs ++ filter (keep sd) rs)).
Proof.
  induction 1 as [current|h r rs next Hr Hd Hl IH]; intros fuel sd cs.
  - by rewrite filter_nil, app_nil_r.
  - cbn [length Nat.add].
    rewrite outcome_walk_loop_S by eauto using lineage_truthy, lineage_cons.
    rewrite (walk_step_dated repo h sd cs r Hr Hd), IH.
    change (keep (replace_tzinfo sd utc)) with (keep sd).
    rewrite (walk_loop_wall _ _ _ (replace_tzinfo sd utc) sd) by done.
    rewrite filter_cons. destruct (keep sd r); simpl; [|done].
    by rewrite <-app_assoc.
Qed.

(** The loop ends on every ancestry, given one unit of fuel per record. *)
Lemma walk_loop_ancestry repo current rs fuel sd cs :
  ancestry fs repo current rs → (length rs ≤ fuel)%nat →
  outcome (walk_loop fs fuel repo current sd cs) =
    Some (Ok (cs ++ filter (keep sd) rs)).
Proof.
  intros (next & Hl & Hn) Hfuel.
  replace fuel with (length rs + (fuel - length rs))%nat by lia.
  rewrite (outcome_walk_loop_lineage _ _ _ _ Hl).
  by rewrite walk_loop_falsy.
Qed.

(** Whenever the loop ends normally it has walked an ancestry. *)
Lemma walk_loop_Ok fuel : ∀ repo current sd cs out,
  outcome (walk_loop fs fuel repo current sd cs) = Some (Ok out) →
  ∃ rs, ancestry fs repo current rs ∧ out = cs ++ filter (keep sd) rs.
Proof.
  induction fuel as [|fuel IH]; intros repo current sd cs out;
    (destruct (truthy current) eqn:Hc;
     [|rewrite walk_loop_falsy by done; intros [= <-]; exists [];
       split; [exists current; split; [constructor|done]|
               by rewrite filter_nil, app_nil_r]]).
  - simpl. by rewrite Hc.
  - rewrite outcome_walk_loop_S by done.
    destruct (walk_step fs repo current sd cs).1 as [[[next sd'] cs']|e] eqn:Hs;
      [|done].
    apply walk_step_Ok in Hs as (h & r & -> & Hr & Hd & -> & -> & ->).
    intros (rs & (next & Hl & Hn) & ->)%IH.
    exists (r :: rs). split.
    + exists next. split; [by econstructor|done].
    + change (keep (replace_tzinfo sd utc)) with (keep sd).
      rewrite filter_cons. destruct (keep sd r); simpl; [|done].
      by rewrite <-app_assoc.
Qed.

(** *** The whole function *)

Lemma outcome_get_commits_after_date fuel repo sd :
  outcome (get_commits_after_date fs fuel repo sd) =
    match (head_commit_hash fs repo).1 with
    | Ok h =>
        match outcome (walk_loop fs fuel repo (VStr h) sd []) with
        | Some (Ok cs) => Some (sort_commits cs)
        | Some (Raise e) => Some (Raise e)
        | None => None
        end
    | Raise e => Some (Raise e)
    end.
Proof.
  unfold get_commits_after_date. rewrite outcome_io_then.
  destruct (head_commit_hash fs repo).1 as [h|e]; [|done].
  by destruct (walk_loop fs fuel repo (VStr h) sd []) as [[[cs|e] t]|].
Qed.

End Walker.

(** *** What the function returns *)

Lemma kept_timestamp sd (rs : list commit) :
  Forall (λ r, is_Some (timestamp r)) (filter (keep sd) rs).
Proof.
  apply Forall_forall. intros x [Hx _]%list_elem_of_filter.
  unfold keep in Hx. by destruct (timestamp x).
Qed.

(** A normal return comes from a walk along an ancestry that starts at the
    hash [HEAD] names; the list returned is the sorted list of the records
    that pass the date test. *)
Lemma get_commits_after_date_Ok {python : Interpreter} fs fuel repo sd out :
  outcome (get_commits_after_date fs fuel repo sd) = Some (Ok out) →
  ∃ tip rs,
    (head_commit_hash fs repo).1 = Ok tip ∧
    ancestry fs repo (VStr tip) rs ∧
    outcome (walk_loop fs fuel repo (VStr tip) sd [])
      = Some (Ok (filter (keep sd) rs)) ∧
    out ≡ₚ filter (keep sd) rs ∧
    StronglySorted timestamp_le out ∧
    ∀ ts, with_timestamp ts out = with_timestamp ts (filter (keep sd) rs).
Proof.
  rewrite outcome_get_commits_after_date.
  destruct (head_commit_hash fs repo).1 as [tip|]; [|done].
  destruct (outcome (walk_loop _ _ _ _ _ _)) as [[found|]|] eqn:Hwalk; try done.
  pose proof Hwalk as Hfound.
  apply walk_loop_Ok in Hfound as (rs & Hrs & ->). rewrite app_nil_l in *.
  destruct (sort_commits_spec _ (kept_timestamp sd rs))
    as (out' & -> & Hperm & Hsorted & Hstable).
  intros [= <-]. by exists tip, rs.
Qed.

(** On an ancestry, with one unit of fuel per record, the function returns. *)
Lemma get_commits_after_date_ancestry {python : Interpreter}
    fs fuel repo sd tip rs :
  (head_commit_hash fs repo).1 = Ok tip →
  ancestry fs repo (VStr tip) rs →
  (length rs ≤ fuel)%nat →
  ∃ out,
    outcome (get_commits_after_date fs fuel repo sd) = Some (Ok out) ∧
    out ≡ₚ filter (keep sd) rs ∧
    StronglySorted timestamp_le out ∧
    ∀ ts, with_timestamp ts out = with_timestamp ts (filter (keep sd) rs).
Proof.
  intros Hhead Hrs Hfuel.
  rewrite outcome_get_commits_after_date, Hhead.
  rewrite (walk_loop_ancestry _ _ _ rs) by done. rewrite app_nil_l.
  destruct (sort_commits_spec _ (kept_timestamp sd rs))
    as (out & -> & Hperm & Hsorted & Hstable).
  by exists out.
Qed.

Lemma lineage_read {python : Interpreter} fs repo current rs next r :
  lineage fs repo current rs next → r ∈ rs →
  ∃ h, r !! "commit_hash" = Some (VStr h) ∧ (read_commit fs h repo).1 = Ok r.
Proof.
  induction 1 as [|h r' rs next Hr' _ _ IH]; [set_solver|].
  intros [->|Hrs]%elem_of_cons; [|auto].
  exists h. split; [|done]. by apply read_commit_Ok in Hr' as [_ ?].
Qed.

(** *** Ancestries *)

Lemma lineage_step {python : Interpreter} fs repo h r rs parent next :
  (read_commit fs h repo).1 = Ok r →
  dated r →
  get r "parent" = parent →
  lineage fs repo parent rs next →
  lineage fs repo (VStr h) (r :: rs) next.
Proof. intros ? ? <- ?. by constructor. Qed.

(** The store decides the ancestry of a hash. *)
Lemma ancestry_unique {python : Interpreter} fs repo current rs1 rs2 :
  ancestry fs repo current rs1 → ancestry fs repo current rs2 → rs1 = rs2.
Proof.
  intros (next1 & Hl1 & Hn1) (next2 & Hl2 & Hn2). revert rs2 Hl2.
  induction Hl1 as [current|h r rs1 next1 Hr Hd Hl1 IH]; intros rs2 Hl2.
  - inversion Hl2 as [|h r rs next Hr]; subst; [done|].
    apply read_commit_Ok in Hr as [Hlen _].
    apply length_lit_hash_nonempty in Hlen. congruence.
  - inversion Hl2 as [|? r' rs next Hr' ? Hl2']; subst.
    + apply read_commit_Ok in Hr as [Hlen _].
      apply length_lit_hash_nonempty in Hlen. congruence.
    + assert (r' = r) as -> by congruence. f_equal. auto.
Qed.

(** Every record of a lineage starts the rest of the lineage. *)
Lemma lineage_suffix {python : Interpreter} fs repo current l1 r l2 next :
  lineage fs repo current (l1 ++ r :: l2) next →
  ∃ h, r !! "commit_hash" = Some (VStr h) ∧
       lineage fs repo (VStr h) (r :: l2) next.
Proof.
  revert current. induction l1 as [|x l1 IH]; intros current Hl; simpl in Hl.
  - inversion Hl as [|h ? ? ? Hr]; subst. exists h.
    split; [|done]. by apply read_commit_Ok in Hr as [_ ?].
  - inversion Hl; subst. eauto.
Qed.

(** No hash occurs twice on an ancestry: a second occurrence would start
    the same ancestry again, and the walk would never reach a root. *)
Lemma ancestry_NoDup {python : Interpreter} fs repo current rs :
  ancestry fs repo current rs → NoDup ((.!! "commit_hash") <$> rs).
Proof.
  intros (next & Hl & Hn).
  induction Hl as [current|h r rs next Hr Hd Hl IH]; [constructor|].
  rewrite fmap_cons. constructor; [|auto].
  intros (r' & Hhash & (l1 & l2 & ->)%list_elem_of_split)%list_elem_of_fmap.
  destruct (lineage_suffix _ _ _ _ _ _ _ Hl) as (h' & Hh' & Hl').
  apply read_commit_Ok in Hr as Hh. destruct Hh as [_ Hh].
  assert (h' = h) as -> by congruence.
  assert (r :: l1 ++ r' :: l2 = r' :: l2) as Heq.
  { apply (ancestry_unique fs repo (VStr h)); eexists; split; eauto.
    by constructor. }
  apply (f_equal length) in Heq. rewrite !length_cons, length_app, length_cons in Heq.
  lia.
Qed.

(** * The claims *)

(** ** Decoder *)

(** C1, as amended.  When every header line of the object can be read,
    [parse_commit_data] returns a record whose parent hash is the second word
    of the LAST line that begins with [parent]: each such line overwrites
    what the lines before it stored. *)
Theorem parse_commit_data_last_parent {python : Interpreter} data h text line :
  decode_utf8 data = Some text →
  Forall readable_line (split_on 10 text) →
  last (filter is_parent_line (split_on 10 text)) = Some line →
  ∃ r p, parse_commit_data data h = Ok r ∧
         split line !! 1%nat = Some p ∧
         r !! "parent" = Some (VStr p).
Proof.
  intros Htext Hall Hlast. unfold parse_commit_data. rewrite Htext. simpl.
  destruct (foldM_parse_readable _ {["commit_hash" := VStr h]} Hall) as [r Hr].
  pose proof (foldM_parse_parent _ _ _ Hr) as Hp. rewrite Hlast in Hp.
  assert (line ∈ filter is_parent_line (split_on 10 text)) as Hin.
  { apply last_Some in Hlast as [l ->]. set_solver. }
  apply list_elem_of_filter in Hin as [Hparent Hin].
  rewrite Forall_forall in Hall. destruct (Hall _ Hin) as [[p Hsecond] _]; [done|].
  exists r, p. by rewrite Hr, Hp, Hsecond.
Qed.

Lemma parse_commit_data_last_parent_witness :
  ∃ r p, Sample.parse Sample.merge_commit (lit Sample.c3) = Ok r ∧
         split (lit ("parent " ++ Sample.c2)) !! 1%nat = Some p ∧
         r !! "parent" = Some (VStr p).
Proof.
  apply (parse_commit_data_last_parent (python:=Sample.python)
           Sample.merge_commit (lit Sample.c3)
           (lit (Sample.commit_text [Sample.c1; Sample.c2] "300"))).
  - vm_compute. reflexivity.
  - apply readable_lineb_true. vm_compute. reflexivity.
  - vm_compute. reflexivity.
Defined.

(** C1 fails as stated: on a commit with two [parent] lines the record does
    not hold the second word of the first of them. *)
Lemma parse_commit_data_first_parent_counterexample :
  ∃ text first r,
    Sample.decode Sample.merge_commit = Some text ∧
    filter is_parent_line (split_on 10 text)
      = [first; lit ("parent " ++ Sample.c2)] ∧
    split first !! 1%nat = Some (lit Sample.c1) ∧
    Sample.parse Sample.merge_commit (lit Sample.c3) = Ok r ∧
    r !! "parent" = Some (VStr (lit Sample.c2)) ∧
    r !! "parent" ≠ Some (VStr (lit Sample.c1)).
Proof.
  eexists _, _, _. split_and!; try (vm_compute; reflexivity).
  vm_compute. discriminate.
Qed.

Lemma filter_nil_Forall {A} (f : A → bool) (l : list A) :
  filter f l = [] → Forall (λ x, ¬ f x) l.
Proof.
  induction l as [|x l IH]; [constructor|].
  rewrite filter_cons. case_decide; [done|]. auto.
Qed.

(** What one turn of the loop does with a record that has no timestamp. *)
Lemma walk_step_undated {python : Interpreter} fs repo h sd cs r :
  (read_commit fs h repo).1 = Ok r →
  r !! "committer_timestamp" = None →
  (walk_step fs repo (VStr h) sd cs).1 = Raise KeyError.
Proof.
  intros Hr Hts. rewrite walk_step_fst, Hr. simpl. unfold getitem.
  by rewrite Hts.
Qed.

(** What one turn of the loop does with a hash whose object is missing. *)
Lemma walk_step_missing {python : Interpreter} fs repo p sd cs :
  fs (object_path repo p) = None →
  (walk_step fs repo (VStr p) sd cs).1 =
    Raise (if decide (length p < 40)%nat then ValueError else FileNotFoundError).
Proof.
  intros Hfs. rewrite walk_step_fst. case_decide as Hlen.
  - by rewrite read_commit_short.
  - rewrite read_commit_long by lia. cbv zeta. by rewrite Hfs.
Qed.

(** An exception raised in a turn of the loop reaches the caller of
    [get_commits_after_date]. *)
Lemma get_commits_after_date_raise {python : Interpreter} fs repo sd tip rs next e fuel :
  (head_commit_hash fs repo).1 = Ok tip →
  lineage fs repo (VStr tip) rs next →
  truthy next = true →
  (∀ cs, (walk_step fs repo next sd cs).1 = Raise e) →
  (length rs < fuel)%nat →
  outcome (get_commits_after_date fs fuel repo sd) = Some (Raise e).
Proof.
  intros Hhead Hl Hnext Hstep Hfuel.
  rewrite outcome_get_commits_after_date, Hhead.
  replace fuel with (length rs + S (fuel - S (length rs)))%nat by lia.
  rewrite (outcome_walk_loop_lineage _ _ _ _ _ Hl).
  by rewrite outcome_walk_loop_S, Hstep.
Qed.

(** C3, as amended.  On an object without a [committer] line (its other
    header lines being readable) [parse_commit_data] does not fail: it
    returns a record that has no [committer_timestamp] key, with no default
    in its place.  The Walker cannot consume such a record: when its walk
    from [HEAD] comes to the object, [get_commits_after_date] raises
    [KeyError]. *)
Theorem parse_commit_data_no_committer {python : Interpreter} data h text :
  decode_utf8 data = Some text →
  filter is_committer_line (split_on 10 text) = [] →
  Forall readable_line (split_on 10 text) →
  ∃ r, parse_commit_data data h = Ok r ∧
       r !! "committer_timestamp" = None ∧
       ∀ fs repo sd tip rs fuel,
         (head_commit_hash fs repo).1 = Ok tip →
         lineage fs repo (VStr tip) rs (VStr h) →
         (read_commit fs h repo).1 = Ok r →
         (length rs < fuel)%nat →
         outcome (get_commits_after_date fs fuel repo sd) = Some (Raise KeyError).
Proof.
  intros Htext Hnone Hall.
  assert (∃ r, parse_commit_data data h = Ok r) as [r Hr].
  { unfold parse_commit_data. rewrite Htext. by apply foldM_parse_readable. }
  exists r. split; [done|].
  assert (r !! "committer_timestamp" = None) as Hts.
  { unfold parse_commit_data in Hr. rewrite Htext in Hr. simpl in Hr.
    apply foldM_parse_timestamp in Hr; [|by apply filter_nil_Forall].
    by rewrite Hr, lookup_singleton_ne. }
  split; [done|]. intros fs repo sd tip rs fuel Hhead Hl Hread Hfuel.
  eapply get_commits_after_date_raise; eauto.
  - apply read_commit_Ok in Hread as [Hlen _]. by apply length_lit_hash_nonempty.
  - intros cs. by apply walk_step_undated with r.
Qed.

Lemma parse_commit_data_no_committer_witness :
  ∃ r, Sample.parse (Sample.data Sample.no_committer) (lit Sample.c3) = Ok r ∧
       r !! "committer_timestamp" = None ∧
       outcome (Sample.walk Sample.undated_tip 1 Sample.repo
                  (Sample.at_second 0 None)) = Some (Raise KeyError).
Proof.
  destruct (parse_commit_data_no_committer (python:=Sample.python)
              (Sample.data Sample.no_committer) (lit Sample.c3)
              (lit Sample.no_committer)) as (r & Hr & Hts & Hwalk).
  - vm_compute. reflexivity.
  - vm_compute. reflexivity.
  - apply readable_lineb_true. vm_compute. reflexivity.
  - exists r. split_and!; [done..|].
    apply (Hwalk Sample.undated_tip Sample.repo _ (lit Sample.c3) []).
    + vm_compute. reflexivity.
    + constructor.
    + rewrite <-Hr. vm_compute. reflexivity.
    + simpl. lia.
Defined.

(** C3 fails as stated: the decoder returns a record for an object that has
    no [committer] line. *)
Lemma parse_commit_data_no_committer_counterexample :
  ∃ text r,
    Sample.decode (Sample.data Sample.no_committer) = Some text ∧
    filter is_committer_line (split_on 10 text) = [] ∧
    Sample.parse (Sample.data Sample.no_committer) (lit Sample.c3) = Ok r ∧
    r !! "commit_hash" = Some (VStr (lit Sample.c3)) ∧
    r !! "committer_timestamp" = None.
Proof.
  eexists _, _. split_and!; vm_compute; reflexivity.
Qed.

(** ** Reader *)

(** C4, as amended.  A hash of fewer than 40 characters makes [read_commit]
    raise [ValueError] before any access to the filesystem, and before
    anything is printed.  A hash of 40 characters or more passes the length
    test, whatever its length: [read_commit] goes on to look for its object
    file. *)
Theorem read_commit_hash_length {python : Interpreter} fs h repo :
  ((length h < 40)%nat → read_commit fs h repo = (Raise ValueError, [])) ∧
  ((40 ≤ length h)%nat →
     ∃ res msg t,
       read_commit fs h repo = (res, EPrint msg :: EExists (object_path repo h) :: t)).
Proof.
  split; intros Hlen.
  - by apply read_commit_short.
  - rewrite read_commit_long by done. cbv zeta.
    destruct (fs (object_path repo h)) as [[c|]|]; eauto.
Qed.

Lemma read_commit_hash_length_witness :
  Sample.read Sample.long_name (lit "fdf4fc3") Sample.repo = (Raise ValueError, []) ∧
  ∃ res msg t,
    Sample.read Sample.long_name (lit Sample.c41) Sample.repo
      = (res, EPrint msg :: EExists (object_path Sample.repo (lit Sample.c41)) :: t).
Proof.
  split.
  - apply (read_commit_hash_length (python:=Sample.python)). vm_compute. lia.
  - apply (read_commit_hash_length (python:=Sample.python)). vm_compute. lia.
Defined.

(** C4 fails as stated: a hash of 41 characters is not rejected; its object
    file is looked up, opened and decoded. *)
Lemma read_commit_long_hash_counterexample :
  length (lit Sample.c41) = 41%nat ∧
  ∃ r p,
    Sample.read Sample.long_name (lit Sample.c41) Sample.repo
      = (Ok r, [EPrint (lit "Trying to read commit from: " ++ p);
                EExists p; EOpen p]) ∧
    r !! "commit_hash" = Some (VStr (lit Sample.c41)).
Proof.
  split; [reflexivity|]. eexists _, _. split; vm_compute; reflexivity.
Qed.

(** C10.  A record that [parse_commit_data] or [read_commit] returns holds,
    under [commit_hash], the hash it was asked for; and every record in the
    list that [get_commits_after_date] returns is the one that [read_commit]
    gives for the hash it holds. *)
Theorem commit_hash_is_requested_hash {python : Interpreter} fs :
  (∀ data h r,
     parse_commit_data data h = Ok r → r !! "commit_hash" = Some (VStr h)) ∧
  (∀ h repo r,
     (read_commit fs h repo).1 = Ok r → r !! "commit_hash" = Some (VStr h)) ∧
  (∀ fuel repo sd out r,
     outcome (get_commits_after_date fs fuel repo sd) = Some (Ok out) →
     r ∈ out →
     ∃ h, r !! "commit_hash" = Some (VStr h) ∧ (read_commit fs h repo).1 = Ok r).
Proof.
  split_and!.
  - apply parse_commit_data_hash.
  - intros h repo r Hr. by apply read_commit_Ok in Hr as [_ ?].
  - intros fuel repo sd out r
      (tip & rs & _ & (next & Hl & _) & _ & Hperm & _)%get_commits_after_date_Ok.
    rewrite Hperm. intros [_ Hin]%list_elem_of_filter.
    eauto using lineage_read.
Qed.

Lemma commit_hash_is_requested_hash_witness :
  Sample.record Sample.c3 (Some Sample.c2) 300 !! "commit_hash"
    = Some (VStr (lit Sample.c3)) ∧
  ∀ r, r ∈ [Sample.record Sample.c2 (Some Sample.c1) 200;
            Sample.record Sample.c3 (Some Sample.c2) 300] →
       ∃ h, r !! "commit_hash" = Some (VStr h) ∧
            (Sample.read Sample.three_commits h Sample.repo).1 = Ok r.
Proof.
  destruct (commit_hash_is_requested_hash (python:=Sample.python)
              Sample.three_commits) as (_ & Hread & Hwalk).
  split.
  - apply (Hread (lit Sample.c3) Sample.repo). vm_compute. reflexivity.
  - intros r. apply (Hwalk 3%nat Sample.repo (Sample.at_second 150 None)).
    vm_compute. reflexivity.
Defined.

(** ** Walker *)

(** C2, as amended.  When the walk from [HEAD] comes to a parent hash whose
    object file does not exist, [get_commits_after_date] does not return
    the commits collected so far: the [FileNotFoundError] of [read_commit]
    (a [ValueError] when the hash has fewer than 40 characters) reaches its
    caller. *)
Theorem missing_parent_raises {python : Interpreter} fs repo sd tip rs p fuel :
  (head_commit_hash fs repo).1 = Ok tip →
  lineage fs repo (VStr tip) rs (VStr p) →
  p ≠ [] →
  fs (object_path repo p) = None →
  (length rs < fuel)%nat →
  outcome (get_commits_after_date fs fuel repo sd) =
    Some (Raise (if decide (length p < 40)%nat
                 then ValueError else FileNotFoundError)).
Proof.
  intros Hhead Hl Hp Hfs Hfuel.
  eapply get_commits_after_date_raise; eauto.
  - by destruct p.
  - intros cs. by apply walk_step_missing.
Qed.

Ltac sample_read := vm_compute; reflexivity.
Ltac sample_dated :=
  eexists; split; [vm_compute; reflexivity|];
  unfold MIN_TIMESTAMP, MAX_TIMESTAMP; lia.
Ltac sample_lineage :=
  repeat first
    [ apply lineage_nil
    | eapply lineage_step; [sample_read|sample_dated|sample_read|] ].

Lemma sample_missing_parent_lineage :
  lineage (python:=Sample.python) Sample.missing_parent Sample.repo
    (VStr (lit Sample.c3))
    [Sample.record Sample.c3 (Some Sample.c2) 300;
     Sample.record Sample.c2 (Some Sample.c9) 200]
    (VStr (lit Sample.c9)).
Proof. sample_lineage. Qed.

Lemma missing_parent_raises_witness :
  outcome (Sample.walk Sample.missing_parent 3 Sample.repo
             (Sample.at_second 0 None))
    = Some (Raise FileNotFoundError).
Proof.
  eapply (missing_parent_raises (python:=Sample.python)
            Sample.missing_parent Sample.repo (Sample.at_second 0 None)
            (lit Sample.c3) _ (lit Sample.c9) 3).
  - vm_compute. reflexivity.
  - apply sample_missing_parent_lineage.
  - discriminate.
  - vm_compute. reflexivity.
  - simpl. lia.
Defined.

(** C2 fails as stated: [c2] names a parent whose object is not in the
    store, and the walk from [c3] ends in [FileNotFoundError]; no amount of
    fuel makes it return a list. *)
Lemma missing_parent_counterexample :
  (∃ r, (Sample.read Sample.missing_parent (lit Sample.c2) Sample.repo).1 = Ok r ∧
        r !! "parent" = Some (VStr (lit Sample.c9))) ∧
  Sample.missing_parent (object_path Sample.repo (lit Sample.c9)) = None ∧
  outcome (Sample.walk Sample.missing_parent 3 Sample.repo
             (Sample.at_second 0 None))
    = Some (Raise FileNotFoundError) ∧
  ∀ fuel out,
    outcome (Sample.walk Sample.missing_parent fuel Sample.repo
               (Sample.at_second 0 None)) ≠ Some (Ok out).
Proof.
  split_and!.
  - eexists. split; vm_compute; reflexivity.
  - vm_compute. reflexivity.
  - vm_compute. reflexivity.
  - intros fuel out.
    destruct (decide (fuel < 3)%nat) as [Hlt|Hge].
    + destruct fuel as [|[|[|fuel]]]; [by vm_compute..|lia].
    + unfold Sample.walk.
      erewrite (get_commits_after_date_raise Sample.missing_parent Sample.repo
                  (Sample.at_second 0 None) (lit Sample.c3) _
                  (VStr (lit Sample.c9)) FileNotFoundError fuel);
        [done|by vm_compute|apply sample_missing_parent_lineage|done
        | |simpl; lia].
      intros cs. by rewrite walk_step_missing.
Qed.

(** C5.  On a chain of N commits that can each be read and dated, each
    naming the one before it as its parent and the first having none, with
    [HEAD] at the last of them and a start date before every timestamp,
    [get_commits_after_date] returns N records: the records of the chain,
    each once (no two of them have the same hash). *)
Theorem linear_chain_walked {python : Interpreter} fs repo sd tip rs fuel :
  (head_commit_hash fs repo).1 = Ok tip →
  ancestry fs repo (VStr tip) rs →
  Forall (λ r, ∃ ts, timestamp r = Some ts ∧ wall sd < ts * 1000000) rs →
  (length rs ≤ fuel)%nat →
  ∃ out,
    outcome (get_commits_after_date fs fuel repo sd) = Some (Ok out) ∧
    length out = length rs ∧
    out ≡ₚ rs ∧
    NoDup ((.!! "commit_hash") <$> out).
Proof.
  intros Hhead Hrs Hbefore Hfuel.
  destruct (get_commits_after_date_ancestry fs fuel repo sd tip rs)
    as (out & Hout & Hperm & _); [done..|].
  assert (filter (keep sd) rs = rs) as Hall.
  { clear -Hbefore. induction Hbefore as [|r rs (ts & Hts & Hlt) _ IH]; [done|].
    rewrite filter_cons, IH, decide_True; [done|].
    unfold keep. rewrite Hts. apply Is_true_true, Z.leb_le. lia. }
  rewrite Hall in Hperm. exists out. split_and!; [done| |done|].
  - by rewrite Hperm.
  - rewrite Hperm. eauto using ancestry_NoDup.
Qed.

Lemma sample_three_commits_ancestry :
  ancestry (python:=Sample.python) Sample.three_commits Sample.repo
    (VStr (lit Sample.c3))
    [Sample.record Sample.c3 (Some Sample.c2) 300;
     Sample.record Sample.c2 (Some Sample.c1) 200;
     Sample.record Sample.c1 None 100].
Proof. exists VNone. split; [sample_lineage|done]. Qed.

Lemma linear_chain_walked_witness :
  ∃ out,
    outcome (Sample.walk Sample.three_commits 3 Sample.repo
               (Sample.at_second 50 None)) = Some (Ok out) ∧
    length out = 3%nat ∧
    out ≡ₚ [Sample.record Sample.c3 (Some Sample.c2) 300;
            Sample.record Sample.c2 (Some Sample.c1) 200;
            Sample.record Sample.c1 None 100] ∧
    NoDup ((.!! "commit_hash") <$> out).
Proof.
  apply (linear_chain_walked (python:=Sample.python) Sample.three_commits
           Sample.repo (Sample.at_second 50 None) (lit Sample.c3)
           [Sample.record Sample.c3 (Some Sample.c2) 300;
            Sample.record Sample.c2 (Some Sample.c1) 200;
            Sample.record Sample.c1 None 100] 3).
  - vm_compute. reflexivity.
  - apply sample_three_commits_ancestry.
  - repeat constructor;
      (eexists; split; [vm_compute; reflexivity|simpl; lia]).
  - simpl. lia.
Defined.

(** C6.  The list that [get_commits_after_date] returns is in ascending
    order of [committer_timestamp], and the records of any one timestamp are
    in it in the order in which the loop found them: [found] is the value of
    [commits] when the loop ends. *)
Theorem walker_output_sorted {python : Interpreter} fs fuel repo sd out :
  outcome (get_commits_after_date fs fuel repo sd) = Some (Ok out) →
  ∃ tip found,
    (head_commit_hash fs repo).1 = Ok tip ∧
    outcome (walk_loop fs fuel repo (VStr tip) sd []) = Some (Ok found) ∧
    out ≡ₚ found ∧
    StronglySorted timestamp_le out ∧
    ∀ ts, with_timestamp ts out = with_timestamp ts found.
Proof.
  intros (tip & rs & Hhead & _ & Hwalk & Hperm & Hsorted & Hstable)
    %get_commits_after_date_Ok.
  by exists tip, (filter (keep sd) rs).
Qed.

Lemma walker_output_sorted_witness :
  ∃ tip found,
    (head_commit_hash (python:=Sample.python) Sample.tied_commits Sample.repo).1
      = Ok tip ∧
    outcome (walk_loop (python:=Sample.python) Sample.tied_commits 3
               Sample.repo (VStr tip) (Sample.at_second 150 None) [])
      = Some (Ok found) ∧
    [Sample.record Sample.c3 (Some Sample.c2) 200;
     Sample.record Sample.c2 (Some Sample.c1) 200] ≡ₚ found ∧
    StronglySorted timestamp_le
      [Sample.record Sample.c3 (Some Sample.c2) 200;
       Sample.record Sample.c2 (Some Sample.c1) 200] ∧
    ∀ ts, with_timestamp ts
            [Sample.record Sample.c3 (Some Sample.c2) 200;
             Sample.record Sample.c2 (Some Sample.c1) 200]
          = with_timestamp ts found.
Proof.
  apply (walker_output_sorted (python:=Sample.python)).
  vm_compute. reflexivity.
Defined.

(** C7.  The date test is an inclusive lower bound.  On an ancestry walked
    from [HEAD], a commit whose timestamp, as a UTC instant, is equal to the
    start date (read in UTC) is in the list returned; and a record of the
    ancestry is in that list exactly when its timestamp is not before the
    start date. *)
Theorem boundary_commit_included {python : Interpreter}
    fs repo sd tip rs fuel r ts :
  (head_commit_hash fs repo).1 = Ok tip →
  ancestry fs repo (VStr tip) rs →
  (length rs ≤ fuel)%nat →
  r ∈ rs →
  timestamp r = Some ts →
  fromtimestamp_utc (VInt ts) = Ok (replace_tzinfo sd utc) →
  ∃ out,
    outcome (get_commits_after_date fs fuel repo sd) = Some (Ok out) ∧
    r ∈ out ∧
    ∀ r', r' ∈ out ↔
          r' ∈ rs ∧ ∃ ts', timestamp r' = Some ts' ∧ wall sd ≤ ts' * 1000000.
Proof.
  intros Hhead Hrs Hfuel Hin Hts Hequal.
  destruct (get_commits_after_date_ancestry fs fuel repo sd tip rs)
    as (out & Hout & Hperm & _); [done..|].
  assert (∀ r', r' ∈ out ↔
            r' ∈ rs ∧ ∃ ts', timestamp r' = Some ts' ∧ wall sd ≤ ts' * 1000000)
    as Hiff.
  { intros r'. rewrite Hperm, list_elem_of_filter. unfold keep.
    destruct (timestamp r') as [ts'|].
    - rewrite Is_true_true, Z.leb_le. split.
      + intros [Hle ?]. eauto.
      + intros [? (? & [= <-] & ?)]. done.
    - split; [by intros [[] _]|by intros [_ (? & ? & _)]]. }
  exists out. split_and!; [done| |done].
  apply Hiff. split; [done|]. exists ts. split; [done|].
  unfold fromtimestamp_utc in Hequal. case_match; [|done].
  injection Hequal as Hwall. lia.
Qed.

Lemma boundary_commit_included_witness :
  ∃ out,
    outcome (Sample.walk Sample.three_commits 3 Sample.repo
               (Sample.at_second 200 None)) = Some (Ok out) ∧
    Sample.record Sample.c2 (Some Sample.c1) 200 ∈ out ∧
    ∀ r', r' ∈ out ↔
          r' ∈ [Sample.record Sample.c3 (Some Sample.c2) 300;
                Sample.record Sample.c2 (Some Sample.c1) 200;
                Sample.record Sample.c1 None 100] ∧
          ∃ ts', timestamp r' = Some ts' ∧ 200 * 1000000 ≤ ts' * 1000000.
Proof.
  apply (boundary_commit_included (python:=Sample.python) Sample.three_commits
           Sample.repo (Sample.at_second 200 None) (lit Sample.c3) _ 3 _ 200).
  - vm_compute. reflexivity.
  - apply sample_three_commits_ancestry.
  - simpl. lia.
  - apply list_elem_of_In. simpl. auto.
  - vm_compute. reflexivity.
  - vm_compute. reflexivity.
Defined.



(** The clock reading is not converted: 00:02:30 at UTC+01:00 is an instant
    before the epoch, yet a commit made 100 seconds after the epoch is left
    out, as it is for 00:02:30 UTC. *)
Lemma start_date_not_converted :
  ∃ out,
    outcome (Sample.walk Sample.three_commits 3 Sample.repo
               (Sample.at_second 150 (Some 3600))) = Some (Ok out) ∧
    (Sample.record Sample.c1 None 100 ∉ out) ∧
    datetime_ge {| wall := 100 * 1000000; tzinfo := Some utc |}
                (Sample.at_second 150 (Some 3600)) = Ok true.
Proof.
  eexists. split_and!; [vm_compute; reflexivity| |vm_compute; reflexivity].
  intros Hin%list_elem_of_In. simpl in Hin.
  destruct Hin as [Heq|[Heq|[]]];
    (apply (f_equal (λ r : commit, r !! "committer_timestamp")) in Heq;
     vm_compute in Heq; discriminate).
Qed.

(** ** Graph builder *)

Lemma fmap_N_of_ascii_inj (l1 l2 : list ascii) :
  N_of_ascii <$> l1 = N_of_ascii <$> l2 → l1 = l2.
Proof.
  revert l2. induction l1 as [|a l1 IH]; intros [|b l2]; try done.
  rewrite !fmap_cons. intros [= Hab Hrest]. f_equal; [|auto].
  by rewrite <-(ascii_N_embedding a), Hab, ascii_N_embedding.
Qed.

Global Instance lit_inj : Inj (=) (=) lit.
Proof.
  intros s1 s2 Heq%fmap_N_of_ascii_inj.
  by rewrite <-(string_of_list_ascii_of_string s1), Heq,
    string_of_list_ascii_of_string.
Qed.

Global Instance str_of_nat_inj : Inj (=) (=) str_of_nat.
Proof. intros n m Heq. by apply (inj pretty), (inj lit). Qed.

Lemma find_parent_idx_find commits p : ∀ i,
  Forall (λ c, is_Some (c !! "commit_hash")) commits →
  find_parent_idx i commits p =
    Ok ((λ x, (i + x.1)%nat) <$>
        list_find (λ c, c !! "commit_hash" = Some p) commits).
Proof.
  induction commits as [|c commits IH]; intros i Hall; [done|].
  inversion Hall as [|? ? [v Hv] Hall']; subst. cbn [find_parent_idx list_find].
  unfold getitem. rewrite Hv. simpl. unfold py_eq.
  destruct (decide (v = p)) as [->|Hne].
  - rewrite bool_decide_true, decide_True by done. simpl. do 3 f_equal. lia.
  - rewrite bool_decide_false, decide_False by congruence.
    rewrite IH by done. f_equal.
    destruct (list_find _ commits) as [[j x]|]; simpl; [|done].
    f_equal. lia.
Qed.

Lemma graph_step_edge commits graph idx c s :
  Forall (λ c, is_Some (c !! "commit_hash")) commits →
  c !! "commit_hash" = Some (VStr s) →
  ∃ label,
    graph_step commits graph idx c =
      Ok ((graph ++ [Node (str_of_nat idx) label]) ++ edge_of commits idx c).
Proof.
  intros Hall Hs. unfold graph_step, getitem, edge_of. rewrite Hs. simpl.
  eexists. destruct (truthy (get c "parent")); [|by rewrite app_nil_r].
  rewrite find_parent_idx_find by done. simpl.
  destruct (list_find _ commits) as [[j x]|]; simpl; [|by rewrite app_nil_r].
  by destruct j.
Qed.

Lemma graph_loop_edges commits rest : ∀ idx graph,
  Forall (λ c, is_Some (c !! "commit_hash")) commits →
  Forall (λ c, ∃ s, c !! "commit_hash" = Some (VStr s)) rest →
  ∃ graph',
    graph_loop commits idx rest graph = Ok graph' ∧
    ∀ a b, Edge a b ∈ graph' ↔
           Edge a b ∈ graph ∨
           ∃ k c, rest !! k = Some c ∧ Edge a b ∈ edge_of commits (idx + k) c.
Proof.
  induction rest as [|c rest IH]; intros idx graph Hall Hrest; simpl.
  - exists graph. split; [done|]. intros a b. split; [auto|].
    by intros [?|(k & c & ? & _)].
  - inversion Hrest as [|? ? [s Hs] Hrest']; subst.
    destruct (graph_step_edge commits graph idx c s Hall Hs) as [label ->].
    simpl.
    destruct (IH (S idx)
                ((graph ++ [Node (str_of_nat idx) label]) ++ edge_of commits idx c)
                Hall Hrest') as (graph' & -> & Hiff).
    exists graph'. split; [done|]. intros a b. rewrite Hiff, !elem_of_app.
    rewrite list_elem_of_singleton. split.
    + intros [[[?|?]|?]|(k & c' & Hk & Hedge)]; [by left|done| |].
      * right. exists 0%nat, c. by rewrite Nat.add_0_r.
      * right. exists (S k), c'. by rewrite Nat.add_succ_r.
    + intros [?|([|k] & c' & Hk & Hedge)]; [by left; left; left| |].
      * simpl in Hk. injection Hk as <-. rewrite Nat.add_0_r in Hedge.
        by left; right.
      * right. exists k, c'. by rewrite Nat.add_succ_r in Hedge.
Qed.

Lemma edge_of_elem commits idx c a b :
  Edge a b ∈ edge_of commits idx c ↔
  ∃ i p, c !! "parent" = Some p ∧ truthy p ∧ first_with_hash commits p i ∧
         a = str_of_nat (S i) ∧ b = str_of_nat idx.
Proof.
  unfold edge_of, get, first_with_hash.
  destruct (c !! "parent") as [p|] eqn:Hp; simpl;
    [|split; [by intros ?%elem_of_nil|by intros (? & ? & ? & _)]].
  destruct (truthy p) eqn:Ht;
    [|split; [by intros ?%elem_of_nil|by intros (? & ? & [= <-] & ?%Is_true_true & _); congruence]].
  destruct (list_find _ commits) as [[j x]|] eqn:Hfind.
  - apply list_find_Some in Hfind as (Hj & Hx & Hfirst).
    rewrite list_elem_of_singleton. split.
    + intros [= -> ->]. exists j, p. split_and!; eauto.
    + intros (i & p' & [= <-] & _ & [(c' & Hi & Hc') Hfirst'] & -> & ->).
      destruct (Nat.lt_trichotomy i j) as [Hlt|[->|Hgt]]; [|done|].
      * by destruct (Hfirst _ _ Hi Hlt).
      * by destruct (Hfirst' _ _ Hj Hgt).
  - apply list_find_None in Hfind. rewrite Forall_forall in Hfind.
    split; [by intros ?%elem_of_nil|].
    intros (i & p' & [= <-] & _ & [(c' & Hi & Hc') _] & _).
    by destruct (Hfind c' (list_elem_of_lookup_2 _ _ _ Hi)).
Qed.

(** C8.  When every commit of the list has a hash, [generate_graph] returns
    a graph whose edges are exactly these: for a commit with a parent hash
    such that some commit of the list has that hash as its [commit_hash],
    one edge, from the sequence number (counted from 1) of the first such
    commit to the sequence number of the commit itself.  So a commit whose
    parent hash no commit of the list has gets no edge. *)
Theorem generate_graph_edges (commits : list commit) :
  Forall (λ c, ∃ s, c !! "commit_hash" = Some (VStr s)) commits →
  ∃ graph,
    generate_graph commits = Ok graph ∧
    (∀ tail head,
       Edge tail head ∈ graph ↔
       ∃ i j child parent_hash,
         commits !! j = Some child ∧
         child !! "parent" = Some parent_hash ∧
         truthy parent_hash ∧
         first_with_hash commits parent_hash i ∧
         tail = str_of_nat (S i) ∧ head = str_of_nat (S j)) ∧
    (∀ j child parent_hash,
       commits !! j = Some child →
       child !! "parent" = Some parent_hash →
       (∀ c, c ∈ commits → c !! "commit_hash" ≠ Some parent_hash) →
       ∀ tail, Edge tail (str_of_nat (S j)) ∉ graph).
Proof.
  intros Hall.
  assert (Forall (λ c, is_Some (c !! "commit_hash")) commits) as Hkeys.
  { eapply Forall_impl; [exact Hall|]. intros c [s Hs]. eauto. }
  destruct (graph_loop_edges commits commits 1 [] Hkeys Hall)
    as (graph & Hgraph & Hiff).
  assert (∀ tail head,
            Edge tail head ∈ graph ↔
            ∃ i j child parent_hash,
              commits !! j = Some child ∧
              child !! "parent" = Some parent_hash ∧
              truthy parent_hash ∧
              first_with_hash commits parent_hash i ∧
              tail = str_of_nat (S i) ∧ head = str_of_nat (S j)) as Hedges.
  { intros tail head. rewrite Hiff. split.
    - intros [?%elem_of_nil|(k & c & Hk & Hedge)]; [done|].
      apply edge_of_elem in Hedge as (i & p & ? & ? & ? & -> & ->).
      by exists i, k, c, p.
    - intros (i & j & child & p & Hj & Hp & Ht & Hfirst & -> & ->).
      right. exists j, child. split; [done|].
      apply edge_of_elem. by exists i, p. }
  exists graph. split_and!; [done|done|].
  intros j child p Hj Hp Habsent tail
    (i & j' & child' & p' & Hj' & Hp' & _ & [(c & Hi & Hc) _] & _ & Heq)%Hedges.
  apply (inj str_of_nat) in Heq. injection Heq as <-.
  assert (p' = p) as -> by congruence.
  by destruct (Habsent c (list_elem_of_lookup_2 _ _ _ Hi)).
Qed.

Lemma generate_graph_edges_witness :
  ∃ graph,
    generate_graph [Sample.record Sample.c2 (Some Sample.c1) 200;
                    Sample.record Sample.c3 (Some Sample.c2) 300] = Ok graph ∧
    (∀ tail head,
       Edge tail head ∈ graph ↔
       ∃ i j child parent_hash,
         [Sample.record Sample.c2 (Some Sample.c1) 200;
          Sample.record Sample.c3 (Some Sample.c2) 300] !! j = Some child ∧
         child !! "parent" = Some parent_hash ∧
         truthy parent_hash ∧
         first_with_hash [Sample.record Sample.c2 (Some Sample.c1) 200;
                          Sample.record Sample.c3 (Some Sample.c2) 300]
           parent_hash i ∧
         tail = str_of_nat (S i) ∧ head = str_of_nat (S j)) ∧
    (∀ j child parent_hash,
       [Sample.record Sample.c2 (Some Sample.c1) 200;
        Sample.record Sample.c3 (Some Sample.c2) 300] !! j = Some child →
       child !! "parent" = Some parent_hash →
       (∀ c, c ∈ [Sample.record Sample.c2 (Some Sample.c1) 200;
                  Sample.record Sample.c3 (Some Sample.c2) 300] →
             c !! "commit_hash" ≠ Some parent_hash) →
       ∀ tail, Edge tail (str_of_nat (S j)) ∉ graph).
Proof.
  apply generate_graph_edges.
  repeat constructor; eexists; vm_compute; reflexivity.
Defined.

(** The scenario of the three commits, the oldest left out by the date
    filter: two nodes and the edge from node 1 to node 2. *)
Lemma generate_graph_scenario :
  ∃ label1 label2,
    generate_graph [Sample.record Sample.c2 (Some Sample.c1) 200;
                    Sample.record Sample.c3 (Some Sample.c2) 300]
    = Ok [Node (lit "1") label1; Node (lit "2") label2;
          Edge (lit "1") (lit "2")].
Proof. eexists _, _. vm_compute. reflexivity. Qed.

(** * Further properties *)

(** ** Decoder *)

Lemma split_go_words s : ∀ cur tok,
  Forall (λ c, isspace c = false) cur →
  tok ∈ split_go cur s → word tok.
Proof.
  induction s as [|c s IH]; intros cur tok Hcur; simpl.
  - destruct cur as [|c cur]; [by intros ?%elem_of_nil|].
    intros ->%list_elem_of_singleton. split.
    + simpl. by destruct (rev cur).
    + by apply List.Forall_rev.
  - destruct (isspace c) eqn:Hc.
    + destruct cur as [|c' cur]; [by apply IH|].
      intros [->|Hin]%elem_of_cons; [|by apply (IH [] tok (Forall_nil_2 _))].
      split; [simpl; by destruct (rev cur)|by apply List.Forall_rev].
    + apply IH. by constructor.
Qed.

Lemma split_words s tok : tok ∈ split s → word tok.
Proof. by apply split_go_words. Qed.

Lemma word_truthy s : word s → truthy (VStr s) = true.
Proof. intros [Hne _]. by destruct s. Qed.

Lemma foldM_parse_committer {python : Interpreter} lines : ∀ d r,
  foldM parse_line d lines = Ok r →
  r !! "committer_timestamp" =
    match last (filter is_committer_line lines) with
    | Some l =>
        match index_back (split l) 2 with
        | Ok t => VInt <$> int_of_str t
        | Raise _ => None
        end
    | None => d !! "committer_timestamp"
    end.
Proof.
  induction lines as [|l lines IH]; intros d r; simpl.
  - congruence.
  - intros (d' & Hd' & Hr)%bind_Ok. rewrite (IH _ _ Hr).
    rewrite filter_cons. destruct (decide (is_committer_line l)) as [Hl|Hl].
    + rewrite last_cons. destruct (last _); [done|].
      rewrite parse_line_committer in Hd' by done.
      apply bind_Ok in Hd' as (t & -> & Hd').
      apply bind_Ok in Hd' as (n & Hn & [= <-]).
      rewrite lookup_insert_eq. by destruct (int_of_str t); simplify_eq/=.
    + destruct (last _); [done|]. eauto using parse_line_timestamp.
Qed.

(** X1.  As for the parent, the last [committer] line decides: the record's
    timestamp is the integer that stands as the last word but one of the
    last line beginning with [committer]. *)
Theorem parse_commit_data_last_committer {python : Interpreter}
    data h text line :
  decode_utf8 data = Some text →
  Forall readable_line (split_on 10 text) →
  last (filter is_committer_line (split_on 10 text)) = Some line →
  ∃ r t n, parse_commit_data data h = Ok r ∧
           index_back (split line) 2 = Ok t ∧
           int_of_str t = Some n ∧
           r !! "committer_timestamp" = Some (VInt n).
Proof.
  intros Htext Hall Hlast. unfold parse_commit_data. rewrite Htext. simpl.
  destruct (foldM_parse_readable _ {["commit_hash" := VStr h]} Hall) as [r Hr].
  pose proof (foldM_parse_committer _ _ _ Hr) as Hts. rewrite Hlast in Hts.
  assert (line ∈ filter is_committer_line (split_on 10 text)) as Hin.
  { apply last_Some in Hlast as [l ->]. set_solver. }
  apply list_elem_of_filter in Hin as [Hcommitter Hin].
  rewrite Forall_forall in Hall.
  destruct (Hall _ Hin) as [_ (t & Ht & n & Hn)]; [done|].
  exists r, t, n. by rewrite Hr, Hts, Ht, Hn.
Qed.

Lemma parse_commit_data_last_committer_witness :
  ∃ r t n, Sample.parse (Sample.data Sample.chatty_root) (lit Sample.c1) = Ok r ∧
           index_back
             (split (lit "committer C O Mitter <committer@example.com> 100 +0000"))
             2 = Ok t ∧
           Sample.int t = Some n ∧
           r !! "committer_timestamp" = Some (VInt n).
Proof.
  apply (parse_commit_data_last_committer (python:=Sample.python)
           (Sample.data Sample.chatty_root) (lit Sample.c1)
           (lit Sample.chatty_root)).
  - vm_compute. reflexivity.
  - apply readable_lineb_true. vm_compute. reflexivity.
  - vm_compute. reflexivity.
Defined.

(** The keys and values that the loop of [parse_commit_data] may store. *)
Lemma parse_line_shape {python : Interpreter} h d line d' :
  (∀ k v, d !! k = Some v →
     k = "commit_hash" ∧ v = VStr h ∨
     k = "parent" ∧ (∃ p, v = VStr p ∧ word p) ∨
     k = "committer_timestamp" ∧ ∃ n, v = VInt n) →
  parse_line d line = Ok d' →
  ∀ k v, d' !! k = Some v →
     k = "commit_hash" ∧ v = VStr h ∨
     k = "parent" ∧ (∃ p, v = VStr p ∧ word p) ∨
     k = "committer_timestamp" ∧ ∃ n, v = VInt n.
Proof.
  intros Hd Hline k v. destruct (is_parent_line line) eqn:Ep.
  - rewrite parse_line_parent in Hline by by rewrite Ep.
    apply bind_Ok in Hline as (p & Hp & [= <-]).
    rewrite lookup_insert. case_decide as Hk; [|by apply Hd].
    intros [= <-]. subst k. right; left. split; [done|]. exists p. split; [done|].
    unfold index in Hp. destruct (split line !! 1%nat) as [p'|] eqn:Hp'; [|done].
    injection Hp as <-. eauto using split_words, list_elem_of_lookup_2.
  - destruct (is_committer_line line) eqn:Ec.
    + rewrite parse_line_committer in Hline by by rewrite Ec.
      apply bind_Ok in Hline as (t & _ & Hline).
      apply bind_Ok in Hline as (n & _ & [= <-]).
      rewrite lookup_insert. case_decide as Hk; [|by apply Hd].
      intros [= <-]. subst k. right; right. eauto.
    + rewrite parse_line_other in Hline by by apply Is_true_false_2.
      injection Hline as <-. by apply Hd.
Qed.

(** X2.  A record that [parse_commit_data] returns has no other keys than
    [commit_hash], [parent] and [committer_timestamp]; its hash is the one
    given, its parent a word (so never the empty string) and its timestamp
    an integer. *)
Theorem parse_commit_data_shape {python : Interpreter} data h r k v :
  parse_commit_data data h = Ok r →
  r !! k = Some v →
  k = "commit_hash" ∧ v = VStr h ∨
  k = "parent" ∧ (∃ p, v = VStr p ∧ word p) ∨
  k = "committer_timestamp" ∧ ∃ n, v = VInt n.
Proof.
  unfold parse_commit_data. intros (text & _ & Hr)%bind_Ok. revert k v.
  remember {["commit_hash" := VStr h]} as d eqn:Hd.
  assert (∀ k v, d !! k = Some v →
            k = "commit_hash" ∧ v = VStr h ∨
            k = "parent" ∧ (∃ p, v = VStr p ∧ word p) ∨
            k = "committer_timestamp" ∧ ∃ n, v = VInt n) as Hshape.
  { subst d. intros k v [-> <-]%lookup_singleton_Some. by left. }
  clear Hd. revert d Hshape Hr.
  induction (split_on 10 text) as [|l lines IH]; intros d Hshape; simpl.
  - by intros [= <-].
  - intros (d' & Hd' & Hr)%bind_Ok.
    eapply IH; [|done]. eauto using parse_line_shape.
Qed.

Lemma parse_commit_data_shape_witness :
  "parent" = "commit_hash" ∧ VStr (lit Sample.c2) = VStr (lit Sample.c3) ∨
  "parent" = "parent" ∧ (∃ p, VStr (lit Sample.c2) = VStr p ∧ word p) ∨
  "parent" = "committer_timestamp" ∧ ∃ n, VStr (lit Sample.c2) = VInt n.
Proof.
  apply (parse_commit_data_shape (python:=Sample.python) Sample.merge_commit
           (lit Sample.c3) (Sample.record Sample.c3 (Some Sample.c2) 300)).
  - vm_compute. reflexivity.
  - vm_compute. reflexivity.
Defined.

(** X3.  Without a line beginning with [parent] the record has no [parent]
    key: [commit_data.get('parent')] is [None], which ends the walk. *)
Theorem parse_commit_data_root {python : Interpreter} data h text :
  decode_utf8 data = Some text →
  filter is_parent_line (split_on 10 text) = [] →
  Forall readable_line (split_on 10 text) →
  ∃ r, parse_commit_data data h = Ok r ∧
       r !! "parent" = None ∧
       truthy (get r "parent") = false.
Proof.
  intros Htext Hnone Hall. unfold parse_commit_data. rewrite Htext. simpl.
  destruct (foldM_parse_readable _ {["commit_hash" := VStr h]} Hall) as [r Hr].
  exists r. split; [done|].
  apply foldM_parse_parent in Hr. rewrite Hnone in Hr. simpl in Hr.
  rewrite lookup_singleton_ne in Hr by done. unfold get. by rewrite Hr.
Qed.

Lemma parse_commit_data_root_witness :
  ∃ r, Sample.parse (Sample.data (Sample.commit_text [] "100")) (lit Sample.c1)
       = Ok r ∧
       r !! "parent" = None ∧
       truthy (get r "parent") = false.
Proof.
  apply (parse_commit_data_root (python:=Sample.python) _ _
           (lit (Sample.commit_text [] "100"))).
  - vm_compute. reflexivity.
  - vm_compute. reflexivity.
  - apply readable_lineb_true. vm_compute. reflexivity.
Defined.

Lemma line_error_raise {python : Interpreter} d line e :
  line_error line = Some e → parse_line d line = Raise e.
Proof.
  unfold line_error. destruct (is_parent_line line) eqn:Ep.
  - rewrite parse_line_parent by by rewrite Ep. unfold index.
    by destruct (split line !! 1%nat); intros [= <-].
  - destruct (is_committer_line line) eqn:Ec; [|done].
    rewrite parse_line_committer by by rewrite Ec.
    destruct (index_back (split line) 2) as [t|e']; simpl; [|by intros [= <-]].
    by destruct (int_of_str t); intros [= <-].
Qed.

(** X4.  Decoding stops at the first line it cannot read, wherever in the
    object that line stands: [IndexError] for a [parent] line without a
    second word or a [committer] line of fewer than two words, [ValueError]
    for a [committer] line whose last word but one is no integer. *)
Theorem parse_commit_data_first_unreadable {python : Interpreter}
    data h text before line after e :
  decode_utf8 data = Some text →
  split_on 10 text = before ++ line :: after →
  Forall readable_line before →
  line_error line = Some e →
  parse_commit_data data h = Raise e.
Proof.
  intros Htext Hlines Hbefore Herr. unfold parse_commit_data.
  rewrite Htext. simpl. rewrite Hlines, foldM_app.
  destruct (foldM_parse_readable _ {["commit_hash" := VStr h]} Hbefore)
    as [d ->].
  simpl. by rewrite (line_error_raise d line e Herr).
Qed.

Lemma parse_commit_data_first_unreadable_witness :
  Sample.parse (Sample.data Sample.lone_parent) (lit Sample.c1)
  = Raise IndexError.
Proof.
  apply (parse_commit_data_first_unreadable (python:=Sample.python) _ _
           (lit Sample.lone_parent)
           (removelast (removelast (split_on 10 (lit Sample.lone_parent))))
           (lit "parent") [[]]).
  - vm_compute. reflexivity.
  - vm_compute. reflexivity.
  - apply readable_lineb_true. vm_compute. reflexivity.
  - vm_compute. reflexivity.
Defined.

Lemma foldM_parse_headers {python : Interpreter} lines : ∀ d,
  foldM parse_line d lines = foldM parse_line d (filter is_header_line lines).
Proof.
  induction lines as [|l lines IH]; intros d; [done|].
  destruct (is_header_line l) eqn:Eh.
  - rewrite filter_cons_True by by rewrite Eh. simpl.
    destruct (parse_line d l); simpl; auto.
  - rewrite filter_cons_False by by apply Is_true_false_2. simpl.
    apply orb_false_elim in Eh as [Ep Ec].
    rewrite parse_line_other by by apply Is_true_false_2. simpl. auto.
Qed.

(** X5.  The record depends on the lines beginning with [parent] or
    [committer] only, in their order: all other lines are skipped, and
    nothing tells the headers of the object from the lines of its message. *)
Theorem parse_commit_data_headers_only {python : Interpreter}
    data1 data2 h text1 text2 :
  decode_utf8 data1 = Some text1 →
  decode_utf8 data2 = Some text2 →
  filter is_header_line (split_on 10 text1)
    = filter is_header_line (split_on 10 text2) →
  parse_commit_data data1 h = parse_commit_data data2 h.
Proof.
  intros Htext1 Htext2 Hheaders. unfold parse_commit_data.
  rewrite Htext1, Htext2. simpl.
  by rewrite (foldM_parse_headers (split_on 10 text1)), Hheaders,
    <-foldM_parse_headers.
Qed.

Lemma parse_commit_data_headers_only_witness :
  Sample.parse (Sample.data (Sample.commit_text [Sample.c1] "100")) (lit Sample.c2)
  = Sample.parse (Sample.data Sample.bare_headers) (lit Sample.c2).
Proof.
  apply (parse_commit_data_headers_only (python:=Sample.python) _ _ _
           (lit (Sample.commit_text [Sample.c1] "100"))
           (lit Sample.bare_headers)).
  - vm_compute. reflexivity.
  - vm_compute. reflexivity.
  - vm_compute. reflexivity.
Defined.

(** ** Reader *)

(** X6.  [read_commit] returns a record exactly when the hash has at least
    40 characters, its object file is there and is a file, the content
    decompresses, and the result decodes to that record. *)
Theorem read_commit_Ok_iff {python : Interpreter} fs h repo r :
  (read_commit fs h repo).1 = Ok r ↔
  (40 ≤ length h)%nat ∧
  ∃ content data,
    fs (object_path repo h) = Some (File content) ∧
    zlib_decompress content = Some data ∧
    parse_commit_data data h = Ok r.
Proof.
  destruct (decide (length h < 40)%nat) as [Hlen|Hlen].
  - rewrite read_commit_short by done. split; [done|]. intros [? _]. lia.
  - rewrite read_commit_long by lia. cbv zeta.
    destruct (fs (object_path repo h)) as [[c|]|]; simpl.
    + split.
      * intros (data & Hdata & Hr)%bind_Ok. split; [lia|]. exists c, data.
        by destruct (zlib_decompress c); simplify_eq/=.
      * intros (_ & c' & data & [= <-] & -> & Hr). done.
    + split; [done|]. by intros (_ & ? & ? & ? & _).
    + split; [done|]. by intros (_ & ? & ? & ? & _).
Qed.

(** X7.  What [read_commit] touches: nothing for a hash of fewer than 40
    characters; otherwise the one path of the object, announced on standard
    output and tested for existence, and opened only when it exists. *)
Theorem read_commit_accesses {python : Interpreter} fs h repo :
  (read_commit fs h repo).2 =
    if decide (length h < 40)%nat then []
    else
      let p := object_path repo h in
      EPrint (lit "Trying to read commit from: " ++ p) :: EExists p ::
      match fs p with
      | Some _ => [EOpen p]
      | None => []
      end.
Proof.
  case_decide as Hlen.
  - by rewrite read_commit_short.
  - rewrite read_commit_long by lia. cbv zeta.
    by destruct (fs (object_path repo h)) as [[c|]|].
Qed.

Lemma objects_dir_end repo :
  ∃ dir, path_join repo [lit ".git"; lit "objects"] = dir ++ lit "objects".
Proof.
  unfold path_join. simpl. unfold join2 at 1.
  change (startswith [sep] (lit "objects")) with false. cbv iota.
  case_match.
  - by eexists.
  - eexists (_ ++ [sep]). by rewrite <-app_assoc.
Qed.

Lemma join2_plain path b :
  path ≠ [] → endswith_sep path = false → startswith [sep] b = false →
  join2 path b = path ++ sep :: b.
Proof.
  intros Hne Hend Hb. unfold join2. rewrite Hb.
  destruct path; [done|]. by rewrite Hend.
Qed.

Lemma startswith_sep_elem b : sep ∉ b → startswith [sep] b = false.
Proof.
  destruct b as [|c b]; [done|]. intros Hc. cbn [startswith].
  destruct (N.eqb_spec sep c) as [<-|]; [|done]. set_solver.
Qed.

Lemma endswith_sep_elem b : sep ∉ b → endswith_sep b = false.
Proof.
  intros Hb. unfold endswith_sep. destruct (last b) as [c|] eqn:Hlast; [|done].
  destruct (N.eqb_spec c sep) as [->|]; [|done].
  apply last_Some_elem_of in Hlast. done.
Qed.

(** X8.  For a hash of two characters or more that has no slash in it, the
    object file is the file named by the rest of the hash, in the directory
    named by its first two characters, in the [.git/objects] directory of
    the repository. *)
Theorem object_path_plain repo h :
  sep ∉ h → (2 ≤ length h)%nat →
  object_path repo h =
    path_join repo [lit ".git"; lit "objects"]
    ++ sep :: take 2 h ++ sep :: drop 2 h.
Proof.
  intros Hsep Hlen. unfold object_path. cbv zeta.
  destruct (objects_dir_end repo) as [dir Hdir]. rewrite Hdir.
  assert (sep ∉ take 2 h) as Htake by (intros ?%subseteq_take; done).
  assert (sep ∉ drop 2 h) as Hdrop by (intros ?%subseteq_drop; done).
  unfold path_join at 1. simpl.
  rewrite (join2_plain (dir ++ lit "objects") (take 2 h)).
  - rewrite join2_plain; [by rewrite <-app_assoc| | |by apply startswith_sep_elem].
    + by destruct dir.
    + unfold endswith_sep. rewrite last_app, last_cons.
      destruct (last (take 2 h)) as [c|] eqn:Hlast.
      * apply last_Some_elem_of in Hlast.
        destruct (N.eqb_spec c sep) as [->|]; done.
      * apply last_None in Hlast. apply (f_equal length) in Hlast.
        rewrite length_take_le in Hlast by done. done.
  - by destruct dir.
  - unfold endswith_sep. by rewrite last_app.
  - by apply startswith_sep_elem.
Qed.

Lemma object_path_plain_witness :
  object_path Sample.repo (lit Sample.c3) =
    path_join Sample.repo [lit ".git"; lit "objects"]
    ++ sep :: take 2 (lit Sample.c3) ++ sep :: drop 2 (lit Sample.c3).
Proof.
  apply object_path_plain.
  - apply (bool_decide_unpack _). vm_compute. exact I.
  - vm_compute. lia.
Defined.

(** X9.  Two hashes without slashes are stored in different files. *)
Theorem object_path_inj repo h1 h2 :
  sep ∉ h1 → sep ∉ h2 → (2 ≤ length h1)%nat → (2 ≤ length h2)%nat →
  object_path repo h1 = object_path repo h2 → h1 = h2.
Proof.
  intros Hsep1 Hsep2 Hlen1 Hlen2.
  rewrite !object_path_plain by done.
  intros Heq%app_inv_head. injection Heq as Heq.
  apply app_inj_1 in Heq as [Htake Hdrop];
    [|by rewrite !length_take_le by done].
  injection Hdrop as Hdrop.
  by rewrite <-(take_drop 2 h1), <-(take_drop 2 h2), Htake, Hdrop.
Qed.

Lemma object_path_inj_witness : lit Sample.c3 = lit Sample.c3.
Proof.
  apply (object_path_inj Sample.repo).
  - apply (bool_decide_unpack _). vm_compute. exact I.
  - apply (bool_decide_unpack _). vm_compute. exact I.
  - vm_compute. lia.
  - vm_compute. lia.
  - reflexivity.
Defined.

(** X10.  The hash is checked for its length only.  When its third character
    is a slash, the rest of the hash is an absolute path, and that is the
    path [read_commit] looks for: the repository path plays no part. *)
Theorem object_path_absolute {python : Interpreter} fs repo h :
  h !! 2%nat = Some sep →
  object_path repo h = drop 2 h ∧
  ((40 ≤ length h)%nat →
   ∃ res msg t,
     read_commit fs h repo = (res, EPrint msg :: EExists (drop 2 h) :: t)).
Proof.
  intros Hslash.
  assert (object_path repo h = drop 2 h) as Hpath.
  { unfold object_path, path_join. cbv zeta. simpl. unfold join2 at 1.
    destruct h as [|a [|b [|c h]]]; try done.
    injection Hslash as ->. by rewrite !skipn_cons, skipn_O. }
  split; [done|]. intros Hlen.
  rewrite read_commit_long by done. cbv zeta. rewrite Hpath.
  destruct (fs (drop 2 h)) as [[c|]|]; eauto.
Qed.

Lemma object_path_absolute_witness :
  object_path Sample.repo (lit Sample.slashed) = drop 2 (lit Sample.slashed) ∧
  ((40 ≤ length (lit Sample.slashed))%nat →
   ∃ res msg t,
     Sample.read Sample.three_commits (lit Sample.slashed) Sample.repo
     = (res, EPrint msg :: EExists (drop 2 (lit Sample.slashed)) :: t)).
Proof.
  apply (object_path_absolute (python:=Sample.python)).
  vm_compute. reflexivity.
Defined.

(** ** Reference resolver *)

Lemma lstrip_head s c : head (lstrip s) = Some c → isspace c = false.
Proof.
  induction s as [|a s IH]; [done|]. simpl.
  destruct (isspace a) eqn:Ha; [done|]. by intros [= <-].
Qed.

Lemma lstrip_last s c : last (lstrip s) = Some c → last s = Some c.
Proof.
  induction s as [|a s IH]; [done|]. simpl.
  destruct (isspace a); [|done].
  intros Hc. rewrite last_cons, (IH Hc). done.
Qed.

Lemma rev_reverse {A} (l : list A) : rev l = reverse l.
Proof. unfold reverse. apply rev_alt. Qed.

(** What [strip] returns neither begins nor ends with whitespace. *)
Lemma strip_ends s c :
  head (strip s) = Some c ∨ last (strip s) = Some c → isspace c = false.
Proof.
  unfold strip. rewrite !rev_reverse, head_reverse, last_reverse.
  intros [Hc|Hc].
  - apply lstrip_last in Hc. rewrite last_reverse in Hc.
    by apply lstrip_head in Hc.
  - by apply lstrip_head in Hc.
Qed.

Lemma read_text_eq {python : Interpreter} fs p :
  read_text fs p =
    (match fs p with
     | Some (File c) => of_option UnicodeDecodeError (decode_text c)
     | Some Dir => Raise IsADirectoryError
     | None => Raise FileNotFoundError
     end, [EOpen p]).
Proof.
  unfold read_text, read_file. by destruct (fs p) as [[c|]|].
Qed.

(** X11.  The hash that [HEAD] is resolved to, directly or through the
    branch it names, has no whitespace at either end: the newline that ends
    the file is not part of the hash. *)
Theorem head_commit_hash_stripped {python : Interpreter} fs repo h c :
  (head_commit_hash fs repo).1 = Ok h →
  head h = Some c ∨ last h = Some c →
  isspace c = false.
Proof.
  unfold head_commit_hash. cbv zeta. rewrite io_bind_fst.
  destruct (read_text fs _).1 as [content|]; [|done].
  destruct (startswith (lit "ref:") (strip content)).
  - rewrite io_bind_fst. simpl.
    destruct (index _ _) as [branch_ref|]; [|done].
    unfold get_commit_hash_from_ref. rewrite io_bind_fst.
    destruct (read_text fs _).1 as [content'|]; [|done].
    intros [= <-]. apply strip_ends.
  - intros [= <-]. apply strip_ends.
Qed.

Lemma head_commit_hash_stripped_witness : isspace 100 = false.
Proof.
  apply (head_commit_hash_stripped (python:=Sample.python)
           Sample.three_commits Sample.repo (lit Sample.c3)).
  - vm_compute. reflexivity.
  - right. vm_compute. reflexivity.
Defined.

Lemma split_go_word s : ∀ cur,
  Forall (λ c, isspace c = false) s →
  split_go cur s = match rev cur ++ s with [] => [] | _ :: _ => [rev cur ++ s] end.
Proof.
  induction s as [|c s IH]; intros cur Hs; simpl.
  - rewrite app_nil_r. destruct cur as [|c cur]; [done|].
    simpl. by destruct (rev cur).
  - inversion Hs as [|? ? Hc Hs']; subst. rewrite Hc, IH by done.
    simpl. by rewrite <-app_assoc.
Qed.

(** What [head_commit_hash] does once it has read [HEAD]. *)
Lemma head_commit_hash_content {python : Interpreter} fs repo bytes content :
  fs (path_join repo [lit ".git"; lit "HEAD"]) = Some (File bytes) →
  decode_text bytes = Some content →
  head_commit_hash fs repo =
    let opened := EOpen (path_join repo [lit ".git"; lit "HEAD"]) in
    if startswith (lit "ref:") (strip content) then
      match split (strip content) !! 1%nat with
      | Some branch_ref =>
          ((get_commit_hash_from_ref fs branch_ref repo).1,
           opened :: (get_commit_hash_from_ref fs branch_ref repo).2)
      | None => (Raise IndexError, [opened])
      end
    else (Ok (strip content), [opened]).
Proof.
  intros Hfs Hdecode. unfold head_commit_hash. cbv zeta.
  rewrite read_text_eq, Hfs, Hdecode.
  unfold mbind at 1, io_mbind, io_bind. cbn [of_option].
  destruct (startswith (lit "ref:") (strip content)); [|done].
  unfold index. destruct (split (strip content) !! 1%nat) as [b|]; [|done].
  unfold mbind, io_mbind, io_bind, lift. cbn [of_option].
  by destruct (get_commit_hash_from_ref fs b repo).
Qed.

(** X12.  A [HEAD] that names its branch without whitespace after [ref:]
    cannot be resolved: the branch is looked for in the second word, there
    is none, and [get_commits_after_date] raises [IndexError], having opened
    no other file than [HEAD]. *)
Theorem head_ref_without_space {python : Interpreter}
    fs repo bytes content fuel sd :
  fs (path_join repo [lit ".git"; lit "HEAD"]) = Some (File bytes) →
  decode_text bytes = Some content →
  startswith (lit "ref:") (strip content) →
  Forall (λ c, isspace c = false) (strip content) →
  get_commits_after_date fs fuel repo sd =
    Some (Raise IndexError, [EOpen (path_join repo [lit ".git"; lit "HEAD"])]).
Proof.
  intros Hfs Hdecode Href%Is_true_true Hword.
  unfold get_commits_after_date.
  rewrite (head_commit_hash_content fs repo bytes content Hfs Hdecode).
  cbv zeta. rewrite Href. unfold split. rewrite split_go_word by done.
  cbn [rev app]. by destruct (strip content) as [|? [|? ?]].
Qed.

Lemma head_ref_without_space_witness :
  Sample.walk Sample.unspaced_head 5 Sample.repo (Sample.at_second 0 None) =
    Some (Raise IndexError,
          [EOpen (path_join Sample.repo [lit ".git"; lit "HEAD"])]).
Proof.
  apply (head_ref_without_space (python:=Sample.python) Sample.unspaced_head
           Sample.repo
           (Sample.data ("ref:refs/heads/main" ++ Sample.nl))
           (lit ("ref:refs/heads/main" ++ Sample.nl))).
  - vm_compute. reflexivity.
  - vm_compute. reflexivity.
  - vm_compute. exact I.
  - apply (bool_decide_unpack _). vm_compute. exact I.
Defined.

(** X13.  When [HEAD] holds nothing but whitespace, the loop is not entered:
    [get_commits_after_date] returns the empty list, whatever the start
    date, having opened [HEAD] and nothing else. *)
Theorem blank_head_empty_history {python : Interpreter}
    fs repo bytes content fuel sd :
  fs (path_join repo [lit ".git"; lit "HEAD"]) = Some (File bytes) →
  decode_text bytes = Some content →
  strip content = [] →
  get_commits_after_date fs fuel repo sd =
    Some (Ok [], [EOpen (path_join repo [lit ".git"; lit "HEAD"])]).
Proof.
  intros Hfs Hdecode Hblank.
  unfold get_commits_after_date.
  rewrite (head_commit_hash_content fs repo bytes content Hfs Hdecode).
  cbv zeta. rewrite Hblank.
  change (startswith (lit "ref:") []) with false. cbv iota.
  unfold io_then. by rewrite walk_loop_falsy.
Qed.

Lemma blank_head_empty_history_witness :
  Sample.walk Sample.blank_head 0 Sample.repo (Sample.at_second 0 None) =
    Some (Ok [], [EOpen (path_join Sample.repo [lit ".git"; lit "HEAD"])]).
Proof.
  apply (blank_head_empty_history (python:=Sample.python) Sample.blank_head
           Sample.repo (Sample.data Sample.nl) (lit Sample.nl)).
  - vm_compute. reflexivity.
  - vm_compute. reflexivity.
  - vm_compute. reflexivity.
Defined.

(** ** Walker *)

Lemma outcome_walk_loop_short {python : Interpreter} fs repo current rs next :
  lineage fs repo current rs next → truthy next = true →
  ∀ fuel sd cs, (fuel ≤ length rs)%nat →
  outcome (walk_loop fs fuel repo current sd cs) = None.
Proof.
  induction 1 as [current|h r rs next Hr Hd Hl IH]; intros Hnext fuel sd cs Hfuel.
  - destruct fuel; [|simpl in Hfuel; lia]. simpl. by rewrite Hnext.
  - assert (truthy (VStr h) = true) as Hh
      by eauto using lineage_truthy, lineage_cons.
    destruct fuel as [|fuel]; [simpl in *; by rewrite Hh|].
    rewrite outcome_walk_loop_S by done.
    rewrite (walk_step_dated fs repo h sd cs r Hr Hd).
    apply IH; [done|]. simpl in Hfuel. lia.
Qed.

Lemma outcome_walk_loop_cycle {python : Interpreter} fs repo h r rs :
  lineage fs repo (VStr h) (r :: rs) (VStr h) →
  ∀ fuel sd cs, outcome (walk_loop fs fuel repo (VStr h) sd cs) = None.
Proof.
  intros Hl fuel. induction fuel as [fuel IH] using lt_wf_ind. intros sd cs.
  assert (truthy (VStr h) = true) as Hh by eauto using lineage_truthy.
  destruct (decide (fuel ≤ length (r :: rs))%nat) as [Hle|Hgt].
  - by apply (outcome_walk_loop_short fs repo _ _ _ Hl).
  - replace fuel with (length (r :: rs) + (fuel - length (r :: rs)))%nat by lia.
    rewrite (outcome_walk_loop_lineage fs repo _ _ _ Hl).
    apply IH. simpl. lia.
Qed.

(** X14.  Cycles are not detected.  When the parent links that start at
    [HEAD] come back to a commit already passed, [get_commits_after_date]
    never returns: whatever the fuel, the loop is still running when it is
    spent. *)
Theorem cycle_never_returns {python : Interpreter}
    fs repo sd tip before h r rs fuel :
  (head_commit_hash fs repo).1 = Ok tip →
  lineage fs repo (VStr tip) before (VStr h) →
  lineage fs repo (VStr h) (r :: rs) (VStr h) →
  outcome (get_commits_after_date fs fuel repo sd) = None.
Proof.
  intros Hhead Hbefore Hcycle.
  rewrite outcome_get_commits_after_date, Hhead.
  assert (truthy (VStr h) = true) as Hh by eauto using lineage_truthy.
  destruct (decide (fuel ≤ length before)%nat) as [Hle|Hgt].
  - by rewrite (outcome_walk_loop_short fs repo _ _ _ Hbefore).
  - replace fuel with (length before + (fuel - length before))%nat by lia.
    rewrite (outcome_walk_loop_lineage fs repo _ _ _ Hbefore).
    by rewrite (outcome_walk_loop_cycle fs repo h r rs Hcycle).
Qed.

Lemma cycle_never_returns_witness :
  outcome (Sample.walk Sample.self_parent 1000 Sample.repo
             (Sample.at_second 0 None)) = None.
Proof.
  apply (cycle_never_returns (python:=Sample.python) Sample.self_parent
           Sample.repo _ (lit Sample.c3) [] (lit Sample.c3)
           (Sample.record Sample.c3 (Some Sample.c3) 300) []).
  - vm_compute. reflexivity.
  - apply lineage_nil.
  - sample_lineage.
Defined.

Lemma walk_step_out_of_range {python : Interpreter} fs repo h sd cs r ts :
  (read_commit fs h repo).1 = Ok r →
  timestamp r = Some ts →
  ts < MIN_TIMESTAMP ∨ MAX_TIMESTAMP < ts →
  (walk_step fs repo (VStr h) sd cs).1 = Raise TimestampOutOfRange.
Proof.
  intros Hr Hts%timestamp_Some Hrange. rewrite walk_step_fst, Hr. simpl.
  unfold getitem. rewrite Hts. simpl.
  destruct (Z.leb_spec MIN_TIMESTAMP ts), (Z.leb_spec ts MAX_TIMESTAMP);
    simpl; try done; lia.
Qed.

(** X15.  Timestamps are not checked before they are turned into dates.  A
    commit dated before the year 1 or after the year 9999 makes
    [datetime.fromtimestamp] fail, and [get_commits_after_date] with it,
    also when the commit would have been left out by the date test. *)
Theorem timestamp_out_of_range_raises {python : Interpreter}
    fs repo sd tip rs h r ts fuel :
  (head_commit_hash fs repo).1 = Ok tip →
  lineage fs repo (VStr tip) rs (VStr h) →
  (read_commit fs h repo).1 = Ok r →
  timestamp r = Some ts →
  ts < MIN_TIMESTAMP ∨ MAX_TIMESTAMP < ts →
  (length rs < fuel)%nat →
  outcome (get_commits_after_date fs fuel repo sd)
    = Some (Raise TimestampOutOfRange).
Proof.
  intros Hhead Hl Hr Hts Hrange Hfuel.
  eapply get_commits_after_date_raise; eauto.
  - apply read_commit_Ok in Hr as [Hlen _]. by apply length_lit_hash_nonempty.
  - intros cs. by apply walk_step_out_of_range with r ts.
Qed.

Lemma timestamp_out_of_range_raises_witness :
  outcome (Sample.walk Sample.far_future 1 Sample.repo
             (Sample.at_second 0 None))
    = Some (Raise TimestampOutOfRange).
Proof.
  apply (timestamp_out_of_range_raises (python:=Sample.python)
           Sample.far_future Sample.repo _ (lit Sample.c3) [] (lit Sample.c3)
           (Sample.record Sample.c3 None 253402300800) 253402300800).
  - vm_compute. reflexivity.
  - apply lineage_nil.
  - vm_compute. reflexivity.
  - vm_compute. reflexivity.
  - right. unfold MAX_TIMESTAMP. lia.
  - simpl. lia.
Defined.

(** X16.  A hash of fewer than 40 characters, in [HEAD] or as a parent, is
    turned down whatever the store holds: [get_commits_after_date] raises
    [ValueError].  Abbreviated hashes are not looked up. *)
Theorem short_hash_raises {python : Interpreter} fs repo sd tip rs p fuel :
  (head_commit_hash fs repo).1 = Ok tip →
  lineage fs repo (VStr tip) rs (VStr p) →
  (0 < length p < 40)%nat →
  (length rs < fuel)%nat →
  outcome (get_commits_after_date fs fuel repo sd) = Some (Raise ValueError).
Proof.
  intros Hhead Hl Hlen Hfuel.
  eapply get_commits_after_date_raise; eauto.
  - destruct p; [simpl in Hlen; lia|done].
  - intros cs. rewrite walk_step_fst.
    by rewrite read_commit_short by lia.
Qed.

Lemma short_hash_raises_witness :
  outcome (Sample.walk Sample.mock_head 1 Sample.repo
             (Sample.at_second 0 None)) = Some (Raise ValueError).
Proof.
  apply (short_hash_raises (python:=Sample.python) Sample.mock_head
           Sample.repo _ (lit Sample.mock_hash) [] (lit Sample.mock_hash)).
  - vm_compute. reflexivity.
  - apply lineage_nil.
  - vm_compute. lia.
  - simpl. lia.
Defined.

Lemma read_commit_parent_word {python : Interpreter} fs h repo r v :
  (read_commit fs h repo).1 = Ok r →
  r !! "parent" = Some v →
  ∃ p, v = VStr p ∧ word p.
Proof.
  destruct (decide (length h < 40)%nat) as [Hlen|Hlen];
    [by rewrite read_commit_short|].
  rewrite read_commit_long by lia. cbv zeta.
  destruct (fs _) as [[c|]|]; simpl; try done.
  intros (data & _ & Hr)%bind_Ok. unfold parse_commit_data in Hr.
  apply bind_Ok in Hr as (text & _ & Hr).
  apply foldM_parse_parent in Hr. rewrite Hr.
  destruct (last _) as [l|]; [|by rewrite lookup_singleton_ne].
  destruct (split l !! 1%nat) as [p|] eqn:Hp; [|done].
  intros [= <-]. exists p. split; [done|].
  eauto using split_words, list_elem_of_lookup_2.
Qed.

Lemma lineage_parent {python : Interpreter} fs repo current rs next r v :
  lineage fs repo current rs next →
  truthy next = false →
  r ∈ rs →
  r !! "parent" = Some v →
  ∃ p r', v = VStr p ∧ (read_commit fs p repo).1 = Ok r' ∧ dated r' ∧ r' ∈ rs.
Proof.
  induction 1 as [|h r0 rs next Hr Hd Hl IH]; intros Hnext Hin Hv;
    [by apply elem_of_nil in Hin|].
  apply elem_of_cons in Hin as [->|Hin].
  - destruct (read_commit_parent_word fs h repo r0 v Hr Hv) as (p & -> & Hp).
    unfold get in Hl. rewrite Hv in Hl. simpl in Hl.
    inversion Hl as [|? r' ? ? Hr' Hd']; subst.
    + apply word_truthy in Hp. congruence.
    + exists p, r'. split_and!; [done..|].
      apply elem_of_cons. right. apply elem_of_cons. by left.
  - destruct (IH Hnext Hin Hv) as (p & r' & ? & ? & ? & ?).
    exists p, r'. split_and!; [done..|]. apply elem_of_cons. by right.
Qed.

(** X17.  When [get_commits_after_date] returns, the parent of every record
    in its list was read too: the hash is that of an object in the store,
    read and dated by the walk, though the date test may have left it out
    of the list. *)
Theorem output_parent_visited {python : Interpreter} fs fuel repo sd out r v :
  outcome (get_commits_after_date fs fuel repo sd) = Some (Ok out) →
  r ∈ out →
  r !! "parent" = Some v →
  ∃ p r', v = VStr p ∧ (read_commit fs p repo).1 = Ok r' ∧ dated r' ∧
          (keep sd r' → r' ∈ out).
Proof.
  intros (tip & rs & _ & (next & Hl & Hnext) & _ & Hperm & _)
    %get_commits_after_date_Ok Hin Hv.
  rewrite Hperm in Hin. apply list_elem_of_filter in Hin as [_ Hin].
  destruct (lineage_parent fs repo _ _ _ r v Hl Hnext Hin Hv)
    as (p & r' & -> & Hr' & Hd' & Hin').
  exists p, r'. split_and!; [done..|].
  intros Hkeep. rewrite Hperm. by apply list_elem_of_filter.
Qed.

Lemma output_parent_visited_witness :
  ∃ p r', VStr (lit Sample.c1) = VStr p ∧
          (Sample.read Sample.three_commits p Sample.repo).1 = Ok r' ∧
          dated r' ∧
          (keep (Sample.at_second 150 None) r' →
           r' ∈ [Sample.record Sample.c2 (Some Sample.c1) 200;
                 Sample.record Sample.c3 (Some Sample.c2) 300]).
Proof.
  apply (output_parent_visited (python:=Sample.python) Sample.three_commits
           3 Sample.repo (Sample.at_second 150 None) _
           (Sample.record Sample.c2 (Some Sample.c1) 200)).
  - vm_compute. reflexivity.
  - apply list_elem_of_In. simpl. auto.
  - vm_compute. reflexivity.
Defined.

(** *** The date test and the sort *)

Section SortFilter.

Context {A : Type} (P : Z * A → Prop) `{!∀ x, Decision (P x)}.
Implicit Types (x : Z * A) (l : list (Z * A)).

Lemma insert_by_key_front x l :
  Forall (λ y, x.1 ≤ y.1) l → insert_by_key x l = x :: l.
Proof.
  destruct 1 as [|y l Hy _]; [done|]. simpl.
  by rewrite (proj2 (Z.leb_le _ _) Hy).
Qed.

Lemma filter_insert_by_key x l :
  StronglySorted (λ a b, a.1 ≤ b.1) l →
  filter P (insert_by_key x l) =
    if decide (P x) then insert_by_key x (filter P l) else filter P l.
Proof.
  induction 1 as [|y l Hl IH Hy]; simpl.
  - rewrite filter_cons, filter_nil. by case_decide.
  - destruct (Z.leb_spec x.1 y.1) as [Hle|Hlt].
    + rewrite (filter_cons _ x). case_decide; [|done].
      rewrite insert_by_key_front; [done|].
      apply Forall_forall. intros z [_ Hz]%list_elem_of_filter.
      apply elem_of_cons in Hz as [->|Hz]; [done|].
      rewrite Forall_forall in Hy. specialize (Hy z Hz). simpl in Hy. lia.
    + rewrite (filter_cons _ y), IH, (filter_cons _ y).
      repeat case_decide; try done. simpl.
      by rewrite (proj2 (Z.leb_gt _ _) Hlt).
Qed.

(** Sorting and filtering can be done in either order. *)
Lemma filter_stable_sort l :
  filter P (stable_sort l) = stable_sort (filter P l).
Proof.
  induction l as [|x l IH]; [done|]. simpl.
  rewrite filter_insert_by_key by apply stable_sort_sorted.
  rewrite filter_cons, IH. by case_decide.
Qed.

End SortFilter.

Lemma sort_commits_filter (Q : commit → bool) cs out :
  Forall (λ r, is_Some (timestamp r)) cs →
  sort_commits cs = Ok out →
  sort_commits (filter Q cs) = Ok (filter Q out).
Proof.
  intros Hall. rewrite !sort_commits_timestamp;
    [|by apply Forall_forall; intros x [_ Hx]%list_elem_of_filter;
         rewrite Forall_forall in Hall; auto|done].
  intros [= <-]. f_equal.
  assert (∀ l : list (Z * commit),
            (filter (λ p, Q p.2) l).*2 = filter Q l.*2) as Hsnd.
  { induction l as [|p l IH]; [done|].
    rewrite fmap_cons, !filter_cons, <-IH. by case_decide. }
  assert (keyed <$> filter Q cs = filter (λ p : Z * commit, Q p.2) (keyed <$> cs))
    as ->.
  { clear. induction cs as [|r cs IH]; [done|].
    rewrite fmap_cons, !filter_cons, <-IH. simpl. by case_decide. }
  by rewrite <-filter_stable_sort, Hsnd.
Qed.

Lemma walk_loop_Ok_fuel {python : Interpreter} fs fuel :
  ∀ repo current sd cs out,
  outcome (walk_loop fs fuel repo current sd cs) = Some (Ok out) →
  ∃ rs, ancestry fs repo current rs ∧ (length rs ≤ fuel)%nat.
Proof.
  induction fuel as [|fuel IH]; intros repo current sd cs out;
    (destruct (truthy current) eqn:Hc;
     [|intros _; exists []; split; [by exists current; split; [constructor|]|
                                    simpl; lia]]).
  - simpl. by rewrite Hc.
  - rewrite outcome_walk_loop_S by done.
    destruct (walk_step fs repo current sd cs).1 as [[[next sd'] cs']|e] eqn:Hs;
      [|done].
    apply walk_step_Ok in Hs as (h & r & -> & Hr & Hd & -> & -> & ->).
    intros (rs & (next & Hl & Hn) & Hlen)%IH.
    exists (r :: rs). split; [|simpl; lia].
    exists next. split; [by econstructor|done].
Qed.

(** X18.  Moving the start date forward only removes records: the list for
    a later start date is the list for the earlier one, without the records
    that are before the later date, in the same order. *)
Theorem later_start_date_filters {python : Interpreter}
    fs fuel repo sd1 sd2 out1 :
  wall sd1 ≤ wall sd2 →
  outcome (get_commits_after_date fs fuel repo sd1) = Some (Ok out1) →
  outcome (get_commits_after_date fs fuel repo sd2)
    = Some (Ok (filter (keep sd2) out1)).
Proof.
  intros Hwall. rewrite !outcome_get_commits_after_date.
  destruct (head_commit_hash fs repo).1 as [tip|]; [|done].
  destruct (outcome (walk_loop fs fuel repo (VStr tip) sd1 []))
    as [[found|]|] eqn:Hwalk; try done.
  intros Hsort.
  destruct (walk_loop_Ok_fuel fs fuel _ _ _ _ _ Hwalk) as (rs & Hrs & Hfuel).
  rewrite (walk_loop_ancestry fs repo _ rs fuel sd1 [] Hrs Hfuel) in Hwalk.
  injection Hwalk as <-.
  rewrite (walk_loop_ancestry fs repo _ rs fuel sd2 [] Hrs Hfuel).
  rewrite !app_nil_l in *.
  assert (filter (keep sd2) rs = filter (keep sd2) (filter (keep sd1) rs)) as ->.
  { rewrite list_filter_filter. apply list_filter_iff. intros r.
    split; [|by intros [? _]]. intros Hkeep. split; [done|].
    unfold keep in *. destruct (timestamp r) as [ts|]; [|done].
    apply Is_true_true, Z.leb_le. apply Is_true_true, Z.leb_le in Hkeep. lia. }
  f_equal. apply sort_commits_filter; [apply kept_timestamp|].
  by destruct (sort_commits (filter (keep sd1) rs)); simplify_eq.
Qed.

Lemma later_start_date_filters_witness :
  outcome (Sample.walk Sample.three_commits 3 Sample.repo
             (Sample.at_second 250 None))
  = Some (Ok (filter (keep (Sample.at_second 250 None))
                [Sample.record Sample.c2 (Some Sample.c1) 200;
                 Sample.record Sample.c3 (Some Sample.c2) 300])).
Proof.
  apply (later_start_date_filters (python:=Sample.python) Sample.three_commits
           3 Sample.repo (Sample.at_second 150 None)).
  - vm_compute. discriminate.
  - vm_compute. reflexivity.
Defined.
